(** * dagrt: support utilities and the stepper contract

    A shallow embedding of [dagrt/vm/utils.py] (namespace classification,
    unique-name generation, argument resolution) together with a model of
    the generated stepper's execution contract, and the properties the
    specification states about them. *)

From stdpp Require Import gmap strings list fin_maps pretty.

Open Scope string_scope.
Open Scope nat_scope.
Open Scope list_scope.

(** ** Python string primitives *)

(** [var.startswith(p)]: [p] is a literal prefix of [var]. *)
Fixpoint startswith (var p : string) {struct p} : bool :=
  match p with
  | EmptyString => true
  | String c p' =>
      match var with
      | EmptyString => false
      | String d var' => Ascii.eqb d c && startswith var' p'
      end
  end.

(** [str(n)] for a non-negative integer: its decimal rendering. *)
Definition str (n : nat) : string := pretty n.

Module Utils.

(** ** [is_state_variable] *)

Definition is_state_variable (var : string) : bool :=
  if String.eqb var "<t>" || String.eqb var "<dt>" then true
  else if startswith var "<state>"
          || startswith var "<p>"
          || startswith var "<ret_time_id>"
          || startswith var "<ret_time>"
          || startswith var "<ret_state>"
  then true
  else false.

(** ** [get_unique_name] *)

(** The inner function [is_in_name_sets]: a scan over the name sets. *)
Fixpoint is_in_name_sets (name_sets : list (gset string)) (var : string) : bool :=
  match name_sets with
  | [] => false
  | name_set :: rest =>
      if bool_decide (var ∈ name_set) then true else is_in_name_sets rest var
  end.

(** The [while] loop of [get_unique_name]; [fuel] bounds the number of
    iterations, [None] means the bound was hit before the loop exited. *)
Fixpoint probe (fuel : nat) (prefix : string) (name_sets : list (gset string))
    (suffix : nat) : option string :=
  match fuel with
  | O => None
  | S fuel' =>
      if is_in_name_sets name_sets (prefix +:+ str suffix)
      then probe fuel' prefix name_sets (S suffix)
      else Some (prefix +:+ str suffix)
  end.

(** [prefix] is a string already, so that [str(prefix)] is [prefix]. *)
Definition get_unique_name (fuel : nat) (prefix : string)
    (name_sets : list (gset string)) : option string :=
  if negb (is_in_name_sets name_sets prefix) then Some prefix
  else probe fuel prefix name_sets 0.

(** Number of loop iterations that always suffices: one more than the number
    of names held by the name sets. *)
Definition enough_fuel (name_sets : list (gset string)) : nat :=
  S (size (⋃ name_sets)).

(** ** [resolve_args] *)

(** Keys of an argument dictionary: numbers for positional arguments,
    identifiers for keyword arguments. *)
Inductive key :=
  | KPos (i : Z)
  | KName (name : string).

Global Instance key_eq_dec : EqDecision key.
Proof. solve_decision. Defined.

Global Instance key_countable : Countable key.
Proof.
  refine (inj_countable'
            (λ k, match k with KPos i => inl i | KName s => inr s end)
            (λ x, match x with inl i => KPos i | inr s => KName s end) _).
  by intros [].
Defined.

(** The reason carried by a [TypeError] of [resolve_args].  The message of
    the first one is built with a ['%d'] conversion applied to the argument
    name, and that formatting itself raises [TypeError]; either way the
    exception raised at that point is a [TypeError]. *)
Inductive type_error :=
  | SpecifiedTwice (name : string)
  | NotSpecified (name : string)
  | LeftoverArguments.

Inductive exn :=
  | TypeError (reason : type_error)
  | KeyError (k : key).

(** Dictionaries are mutable objects: they live in a store and are passed
    around by reference. *)
Abbreviation loc := positive (only parsing).

Section store.
Context {V : Type}.

Abbreviation dict := (gmap key V) (only parsing).
Abbreviation store := (gmap loc (gmap key V)) (only parsing).

(** Computations that read and update the store and may raise. *)
Definition M (A : Type) : Type := store → (exn + A) * store.

Definition ret {A} (a : A) : M A := λ h, (inr a, h).
Definition raise {A} (e : exn) : M A := λ h, (inl e, h).
Definition bind {A B} (m : M A) (f : A → M B) : M B :=
    λ h, match m h with
         | (inl e, h') => (inl e, h')
         | (inr a, h') => f a h'
         end.

(** [d.copy()] *)
Definition dict_copy (d : loc) : M loc :=
    λ h, let d' := fresh (dom h) in (inr d', <[d' := h !!! d]> h).

(** [k in d] *)
Definition dict_contains (d : loc) (k : key) : M bool :=
    λ h, (inr (bool_decide (is_Some ((h !!! d : dict) !! k))), h).

(** [d.pop(k)] *)
Definition dict_pop (d : loc) (k : key) : M V :=
    λ h, match (h !!! d : dict) !! k with
         | Some v => (inr v, <[d := delete k (h !!! d : dict)]> h)
         | None => (inl (KeyError k), h)
         end.

(** [d[k]] *)
Definition dict_getitem (d : loc) (k : key) : M V :=
    λ h, match (h !!! d : dict) !! k with
         | Some v => (inr v, h)
         | None => (inl (KeyError k), h)
         end.

(** Truth value of a dictionary: it is non-empty. *)
Definition dict_truth (d : loc) : M bool :=
    λ h, (inr (negb (bool_decide ((h !!! d : dict) = ∅))), h).

Notation "'let*' x := m 'in' k" := (bind m (λ x, k))
    (at level 10, x name, m at level 100, k at level 200, only parsing).

(** The [for i, name in enumerate(arg_names)] loop; [args] is the list
    built so far by [args.append]. *)
Fixpoint resolve_loop (arg_dict default_dict : loc) (i : nat)
      (arg_names : list string) (args : list V) : M (list V) :=
    match arg_names with
    | [] => ret args
    | name :: rest =>
        let* has_pos := dict_contains arg_dict (KPos (Z.of_nat i)) in
        if has_pos then
          let* v := dict_pop arg_dict (KPos (Z.of_nat i)) in
          let* has_kw := dict_contains arg_dict (KName name) in
          if has_kw then raise (TypeError (SpecifiedTwice name))
          else resolve_loop arg_dict default_dict (S i) rest (args ++ [v])
        else
          let* has_kw := dict_contains arg_dict (KName name) in
          if has_kw then
            let* v := dict_pop arg_dict (KName name) in
            resolve_loop arg_dict default_dict (S i) rest (args ++ [v])
          else
            let* has_default := dict_contains default_dict (KName name) in
            if has_default then
              let* v := dict_getitem default_dict (KName name) in
              resolve_loop arg_dict default_dict (S i) rest (args ++ [v])
            else raise (TypeError (NotSpecified name))
    end.

Definition resolve_args (arg_names : list string) (default_dict arg_dict : loc)
      : M (list V) :=
    let* arg_dict := dict_copy arg_dict in
    let* args := resolve_loop arg_dict default_dict 0 arg_names [] in
    let* leftover := dict_truth arg_dict in
    if leftover then raise (TypeError LeftoverArguments)
    else ret args.

End store.

End Utils.

(** ** What [resolve_args] computes, on dictionary values

    The outcome of [resolve_args] depends only on the contents of the two
    dictionaries.  [resolve_on] is the same algorithm run on the contents,
    and the predicates below name the conditions under which it raises. *)

Module ResolveSpec.
Import Utils.

Section spec.
Context {V : Type}.
Implicit Types (A D : gmap key V) (arg_names : list string).

(** The loop of [resolve_args] on the contents [A] of the private copy;
    returns the outcome and what is left of the copy. *)
Fixpoint loop_on D (i : nat) arg_names A (args : list V)
      : (exn + list V) * gmap key V :=
    match arg_names with
    | [] => (inr args, A)
    | name :: rest =>
        match A !! KPos (Z.of_nat i) with
        | Some v =>
            let A1 := delete (KPos (Z.of_nat i)) A in
            if bool_decide (is_Some (A1 !! KName name))
            then (inl (TypeError (SpecifiedTwice name)), A1)
            else loop_on D (S i) rest A1 (args ++ [v])
        | None =>
            match A !! KName name with
            | Some v => loop_on D (S i) rest (delete (KName name) A) (args ++ [v])
            | None =>
                match D !! KName name with
                | Some v => loop_on D (S i) rest A (args ++ [v])
                | None => (inl (TypeError (NotSpecified name)), A)
                end
            end
        end
    end.

Definition resolve_on arg_names D A : exn + list V :=
    match loop_on D 0 arg_names A [] with
    | (inl e, _) => inl e
    | (inr args, A') =>
        if negb (bool_decide (A' = ∅)) then inl (TypeError LeftoverArguments)
        else inr args
    end.

(** The value for the name at position [i]: the positional entry if there
    is one, else the keyword entry, else the default. *)
Definition binding D A (i : nat) (name : string) : option V :=
    match A !! KPos (Z.of_nat i) with
    | Some v => Some v
    | None =>
        match A !! KName name with
        | Some v => Some v
        | None => D !! KName name
        end
    end.

(** The argument at position [i] is given both by index and by name. *)
Definition twice_at A (i : nat) (name : string) : Prop :=
    is_Some (A !! KPos (Z.of_nat i)) ∧ is_Some (A !! KName name).

(** The argument at position [i] has no positional entry, no keyword entry
    and no default. *)
Definition missing_at D A (i : nat) (name : string) : Prop :=
    A !! KPos (Z.of_nat i) = None ∧ A !! KName name = None ∧ D !! KName name = None.

Definition supplied_twice arg_names A : Prop :=
    ∃ i name, arg_names !! i = Some name ∧ twice_at A i name.

Definition unspecified arg_names D A : Prop :=
    ∃ i name, arg_names !! i = Some name ∧ missing_at D A i name.

(** The entry of [A] that binds the name at position [i], if any. *)
Definition consumed_key A (i : nat) (name : string) : option key :=
    if bool_decide (is_Some (A !! KPos (Z.of_nat i))) then Some (KPos (Z.of_nat i))
    else if bool_decide (is_Some (A !! KName name)) then Some (KName name)
    else None.

(** Entries remain once every name has consumed its binding. *)
Definition leftover arg_names A : Prop :=
    ∃ k, is_Some (A !! k)
         ∧ ∀ i name, arg_names !! i = Some name → consumed_key A i name ≠ Some k.

(** A key that the loop started at index [i] looks at. *)
Definition covered (i : nat) arg_names (k : key) : Prop :=
    (∃ j, j < length arg_names ∧ k = KPos (Z.of_nat (i + j)))
    ∨ (∃ name, name ∈ arg_names ∧ k = KName name).

End spec.

End ResolveSpec.

(** * The instruction graph, the code generator and the generated stepper

    The repository slice holds the tests of the code generator
    ([test/test_codegen_python.py]) but not the language, the generator or
    the generated stepper; they are modelled here from the specification. *)

Module Stepper.
Import Utils.

(** ** Expressions *)

(** Modelled from the spec: the expression collaborator (the symbolic
    expression algebra is outside the slice).  Only what the scenarios use
    is kept: integer literals, variable references and sums; [X] is the type
    of variable references, names in a program and identifiers in
    generated code. *)
Inductive expr (X : Type) :=
  | Const (z : Z)
  | Var (x : X)
  | Sum (e1 e2 : expr X).

Arguments Const {X} z.
Arguments Var {X} x.
Arguments Sum {X} e1 e2.

(** Modelled from the spec: expression dependency extraction, "given an
    expression, return the set of variable names it reads". *)
Fixpoint get_variables (e : expr string) : list string :=
  match e with
  | Const _ => []
  | Var x => [x]
  | Sum e1 e2 => get_variables e1 ++ get_variables e2
  end.

(** Modelled from the spec: expression lowering, which replaces every name
    by its assigned identifier. *)
Fixpoint rename_expr {X Y} (f : X → Y) (e : expr X) : expr Y :=
  match e with
  | Const z => Const z
  | Var x => Var (f x)
  | Sum e1 e2 => Sum (rename_expr f e1) (rename_expr f e2)
  end.

(** Modelled from the spec: expression evaluation; reading a variable that
    holds no value has no result. *)
Fixpoint eval {X} (read : X → option Z) (e : expr X) : option Z :=
  match e with
  | Const z => Some z
  | Var x => read x
  | Sum e1 e2 =>
      match eval read e1, eval read e2 with
      | Some v1, Some v2 => Some (v1 + v2)%Z
      | _, _ => None
      end
  end.

(** ** Data model (spec section 3) *)

(** Modelled from the spec: the instruction variants. *)
Inductive variant :=
  | Assign (assignee : string) (expression : expr string)
  | ConditionalBranch (condition : expr string)
      (then_depends_on else_depends_on : list string)
  | Emit (time : expr string) (time_id : string) (expression : expr string)
      (component_id : string)
  | AbortStep
  | RaiseError (kind message : string).

(** Modelled from the spec: an instruction, its id and its dependencies. *)
Record Instruction := {
  id : string;
  depends_on : list string;
  insn : variant;
}.

(** Modelled from the spec: a state, keyed by its name in [states]. *)
Record ProgramState := {
  root_ids : list string;
  next_state : string;
}.

(** Modelled from the spec: a program; [instructions] is kept in
    registration order. *)
Record Program := {
  instructions : list Instruction;
  states : list (string * ProgramState);
  initial_state : string;
}.

Inductive build_error :=
  | DuplicateId (i : string)
  | UnresolvedDependencyError (i : string).

(** Every id an instruction refers to. *)
Definition referenced_ids (ins : Instruction) : list string :=
  depends_on ins ++
  match insn ins with
  | ConditionalBranch _ then_ids else_ids => then_ids ++ else_ids
  | _ => []
  end.

(** Modelled from the spec: [create_with_init_and_step] (section 4.2), the
    two-state program ["initialization"] then ["primary"], the latter its
    own successor; it fails when a referenced id is absent. *)
Definition create_with_init_and_step (initialization_dep_on : list string)
    (instructions : list Instruction) (step_dep_on : list string)
    : build_error + Program :=
  match list_find (λ i, i ∉ id <$> instructions)
          (initialization_dep_on ++ step_dep_on
           ++ concat (referenced_ids <$> instructions)) with
  | Some (_, i) => inl (UnresolvedDependencyError i)
  | None =>
      inr {| instructions := instructions;
             states :=
               [("initialization",
                 {| root_ids := initialization_dep_on; next_state := "primary" |});
                ("primary",
                 {| root_ids := step_dep_on; next_state := "primary" |})];
             initial_state := "initialization" |}
  end.

(** ** Scheduling (spec section 4.3, steps 1 and 2) *)

Definition find_instruction (I : list Instruction) (i : string)
    : option Instruction :=
  match list_find (λ ins, id ins = i) I with
  | Some (_, ins) => Some ins
  | None => None
  end.

(** The ids reached from [ids] along [next], by iterating [fuel] times. *)
Fixpoint closure (fuel : nat) (next : string → list string) (ids : list string)
    : list string :=
  match fuel with
  | O => ids
  | S fuel' => closure fuel' next (remove_dups (ids ++ concat (next <$> ids)))
  end.

(** Modelled from the spec: the reachable subgraph of a scheduling unit,
    "root ids plus transitive [depends_on]"; branch arms are not merged
    into it. *)
Definition reachable (I : list Instruction) (roots : list string) : list string :=
  closure (length I)
    (λ i, from_option depends_on [] (find_instruction I i)) roots.

(** The whole region of a state: the arms of its branches included. *)
Definition region (I : list Instruction) (roots : list string) : list string :=
  closure (length I)
    (λ i, from_option referenced_ids [] (find_instruction I i)) roots.

(** The instructions with the given ids, in registration order. *)
Definition members (I : list Instruction) (ids : list string) : list Instruction :=
  filter (λ ins, id ins ∈ ids) I.

(** Modelled from the spec: topological order by dependency edges, ties
    broken by ascending registration order: repeatedly take the first
    pending instruction whose dependencies have all been scheduled. *)
Fixpoint toposort (fuel : nat) (pending : list Instruction) (scheduled : list string)
    : list Instruction :=
  match fuel with
  | O => []
  | S fuel' =>
      match list_find (λ ins, Forall (λ d, d ∈ scheduled) (depends_on ins)) pending with
      | Some (_, ins) =>
          ins :: toposort fuel' (filter (λ other, id other ≠ id ins) pending)
                   (id ins :: scheduled)
      | None => []
      end
  end.

Definition schedule (I : list Instruction) (roots : list string) : list Instruction :=
  toposort (length (members I (reachable I roots)))
    (members I (reachable I roots)) [].

(** ** Identifier assignment (spec section 4.3, step 3) *)

(** Generated identifiers, by namespace: persistent variables live in the
    stepper, locals in one execution of a state. *)
Inductive ident :=
  | Persistent (name : string)
  | Local (name : string).

Global Instance ident_eq_dec : EqDecision ident.
Proof. solve_decision. Defined.

Record name_maps := {
  global_idents : gmap string string;
  local_idents : gmap string string;
}.

Section generator.

(** What the target accepts as an identifier, and how a name is made
    acceptable; both belong to the target backend. *)
Variables (is_legal : string → bool) (sanitize : string → string).

(** Modelled from the spec: "if a name's natural form is already legal and
    unused in its namespace, keep it; otherwise generate the shortest
    distinguishing identifier by sanitizing the natural name and probing
    suffixes 0, 1, 2, ... until free". *)
Definition fresh_identifier (used : gset string) (name : string) : option string :=
  if is_legal name && bool_decide (name ∉ used) then Some name
  else get_unique_name (enough_fuel [used]) (sanitize name) [used].

(** Every distinct name gets an identifier, in order of first reference. *)
Fixpoint assign_identifiers (names : list string) (m : gmap string string)
    (used : gset string) : option (gmap string string) :=
  match names with
  | [] => Some m
  | name :: rest =>
      match m !! name with
      | Some _ => assign_identifiers rest m used
      | None =>
          match fresh_identifier used name with
          | Some i => assign_identifiers rest (<[name := i]> m) ({[i]} ∪ used)
          | None => None
          end
      end
  end.

(** The names an instruction refers to: the assignee, then the variables of
    its expressions. *)
Definition names_of (ins : Instruction) : list string :=
  match insn ins with
  | Assign assignee e => assignee :: get_variables e
  | ConditionalBranch c _ _ => get_variables c
  | Emit time _ e _ => get_variables time ++ get_variables e
  | AbortStep => []
  | RaiseError _ _ => []
  end.

(** The namespace of a name is read off its prefix by [is_state_variable]. *)
Definition ident_of (nm : name_maps) (name : string) : ident :=
  if is_state_variable name
  then Persistent (default name (global_idents nm !! name))
  else Local (default name (local_idents nm !! name)).

(** ** Lowering (spec section 4.3, step 4) *)

(** Target actions. *)
#[local] Set Warnings "-register-all".
Inductive action :=
  | Store (target : ident) (e : expr ident)
  | Branch (condition : expr ident) (then_body else_body : list action)
  | Yield (time : expr ident) (time_id : string) (e : expr ident)
      (component_id : string)
  | Fail
  | Raise (kind message : string).

(** Modelled from the spec: the lowering of one instruction; [lower_arm]
    lowers the arm of a branch. *)
Definition lower_instruction (lower_arm : list string → list action)
    (nm : name_maps) (ins : Instruction) : action :=
  match insn ins with
  | Assign assignee e =>
      Store (ident_of nm assignee) (rename_expr (ident_of nm) e)
  | ConditionalBranch c then_ids else_ids =>
      Branch (rename_expr (ident_of nm) c) (lower_arm then_ids) (lower_arm else_ids)
  | Emit time time_id e component_id =>
      Yield (rename_expr (ident_of nm) time) time_id
        (rename_expr (ident_of nm) e) component_id
  | AbortStep => Fail
  | RaiseError kind message => Raise kind message
  end.

(** Modelled from the spec: the lowering of one scheduling unit, in
    schedule order; each arm of a branch is a scheduling unit of its own,
    lowered inside the branch.  [fuel] bounds the nesting of branches. *)
Fixpoint lower_unit (fuel : nat) (I : list Instruction) (nm : name_maps)
    (roots : list string) : list action :=
  match fuel with
  | O => []
  | S fuel' => lower_instruction (lower_unit fuel' I nm) nm <$> schedule I roots
  end.

(** The code of one state and the generated class. *)
Record StateCode := {
  body : list action;
  successor : string;
}.

Record GeneratedClass := {
  globals : gmap string string;
  state_code : list (string * StateCode);
  start : string;
}.

(** Locals are scoped per state: their identifiers are assigned afresh for
    each state, over the names of the state's region. *)
Definition generate_state (I : list Instruction) (g : gmap string string)
    (st : ProgramState) : option StateCode :=
  l ← assign_identifiers
         (filter (λ name, is_state_variable name = false)
            (concat (names_of <$> members I (region I (root_ids st))))) ∅ ∅;
  Some {| body := lower_unit (S (length I)) I
                    {| global_idents := g; local_idents := l |} (root_ids st);
          successor := next_state st |}.

(** Modelled from the spec: the code generator, from a program to the
    class of its steppers. *)
Definition get_class (P : Program) : option GeneratedClass :=
  g ← assign_identifiers
         (filter (λ name, is_state_variable name = true)
            (concat (names_of <$> instructions P))) ∅ ∅;
  codes ← mapM (λ entry : string * ProgramState,
                  sc ← generate_state (instructions P) g entry.2;
                  Some (entry.1, sc)) (states P);
  Some {| globals := g; state_code := codes; start := initial_state P |}.

End generator.

(** ** Execution contract (spec section 4.4) *)

(** Modelled from the spec: the exposed events and failure signals. *)
Inductive event :=
  | Emitted (component_id time_id : string) (time value : Z)
  | StateCompleted (state_name : string).

Inductive signal :=
  | StepFailed
  | Raised (kind message : string).

(** What the caller pulls from a stepper, one at a time.  [Unspecified]
    marks a run the spec gives no behaviour for: a read of a variable
    that holds no value, or a current state without code. *)
Inductive item :=
  | Event (e : event)
  | Failure (s : signal)
  | Unspecified.

Record env := {
  persistent : gmap string Z;
  locals : gmap string Z;
}.

Definition read (σ : env) (x : ident) : option Z :=
  match x with
  | Persistent i => persistent σ !! i
  | Local i => locals σ !! i
  end.

Definition write (σ : env) (x : ident) (v : Z) : env :=
  match x with
  | Persistent i => {| persistent := <[i := v]> (persistent σ); locals := locals σ |}
  | Local i => {| persistent := persistent σ; locals := <[i := v]> (locals σ) |}
  end.

Inductive outcome :=
  | Continue (σ : env)
  | Stop (s : signal) (σ : env)
  | Stuck.

(** Modelled from the spec: what each action does.  A branch runs the arm
    its condition selects (a non-zero value selects the first); [Fail] and
    [Raise] unwind without running what follows. *)
Fixpoint exec (a : action) (σ : env) {struct a} : list event * outcome :=
  match a with
  | Store x e =>
      match eval (read σ) e with
      | Some v => ([], Continue (write σ x v))
      | None => ([], Stuck)
      end
  | Branch c then_body else_body =>
      let block :=
        fix block (l : list action) (σ : env) : list event * outcome :=
          match l with
          | [] => ([], Continue σ)
          | a' :: l' =>
              match exec a' σ with
              | (evs, Continue σ') =>
                  let '(evs', o) := block l' σ' in (evs ++ evs', o)
              | stopped => stopped
              end
          end in
      match eval (read σ) c with
      | Some v => if Z.eqb v 0 then block else_body σ else block then_body σ
      | None => ([], Stuck)
      end
  | Yield time time_id e component_id =>
      match eval (read σ) time, eval (read σ) e with
      | Some t, Some v => ([Emitted component_id time_id t v], Continue σ)
      | _, _ => ([], Stuck)
      end
  | Fail => ([], Stop StepFailed σ)
  | Raise kind message => ([], Stop (Raised kind message) σ)
  end.

Fixpoint exec_block (l : list action) (σ : env) : list event * outcome :=
  match l with
  | [] => ([], Continue σ)
  | a :: l' =>
      match exec a σ with
      | (evs, Continue σ') =>
          let '(evs', o) := exec_block l' σ' in (evs ++ evs', o)
      | stopped => stopped
      end
  end.

(** A running stepper: its class, its current state and its persistent
    variable storage. *)
Record StepperState := {
  class : GeneratedClass;
  current_state : string;
  storage : gmap string Z;
}.

Definition set_variable (g : gmap string string) (name : string) (v : Z)
    (s : gmap string Z) : gmap string Z :=
  match g !! name with
  | Some i => <[i := v]> s
  | None => s
  end.

(** Modelled from the spec: [set_up] initializes the time and step-size
    singletons and the persistent variables from [context], and makes the
    initial state current. *)
Definition set_up (cls : GeneratedClass) (initial_time initial_step_size : Z)
    (context : list (string * Z)) : StepperState :=
  {| class := cls;
     current_state := start cls;
     storage :=
       foldr (λ entry : string * Z,
                set_variable (globals cls) ("<state>" +:+ entry.1) entry.2)
         (set_variable (globals cls) "<dt>" initial_step_size
            (set_variable (globals cls) "<t>" initial_time ∅))
         context |}.

Definition find_state (codes : list (string * StateCode)) (name : string)
    : option StateCode :=
  match list_find (λ entry : string * StateCode, entry.1 = name) codes with
  | Some (_, entry) => Some entry.2
  | None => None
  end.

(** Modelled from the spec: [run_single_step] executes the current state:
    its events, then [StateCompleted] and the move to the successor state;
    on a failure signal the signal takes the place of [StateCompleted] and
    the current state stays. *)
Definition run_single_step (m : StepperState) : list item * StepperState :=
  match find_state (state_code (class m)) (current_state m) with
  | None => ([Unspecified], m)
  | Some sc =>
      match exec_block (body sc) {| persistent := storage m; locals := ∅ |} with
      | (evs, Continue σ) =>
          ((Event <$> evs) ++ [Event (StateCompleted (current_state m))],
           {| class := class m;
              current_state := successor sc;
              storage := persistent σ |})
      | (evs, Stop s σ) =>
          ((Event <$> evs) ++ [Failure s],
           {| class := class m;
              current_state := current_state m;
              storage := persistent σ |})
      | (evs, Stuck) => ((Event <$> evs) ++ [Unspecified], m)
      end
  end.

(** Fatal items end the sequence of a run. *)
Definition is_fatal (i : item) : bool :=
  match i with
  | Failure (Raised _ _) => true
  | Unspecified => true
  | _ => false
  end.

(** Modelled from the spec: [run] invokes [run_single_step] up to
    [max_steps] times and stops early on a fatal error. *)
Fixpoint run (max_steps : nat) (m : StepperState) : list item :=
  match max_steps with
  | O => []
  | S n =>
      let '(items, m') := run_single_step m in
      if existsb is_fatal items then items else items ++ run n m'
  end.

(** The calls of [run_single_step] made one after the other. *)
Fixpoint after_steps (n : nat) (m : StepperState) : StepperState :=
  match n with
  | O => m
  | S n' => after_steps n' (run_single_step m).2
  end.

End Stepper.

(** ** The programs of the code generator's tests *)

Module Scenarios.
Import Stepper.

(** [test_basic_codegen]: a single [Emit] of the literal 0. *)
Definition basic_instructions : list Instruction :=
  [ {| id := "return"; depends_on := [];
       insn := Emit (Const 0) "final" (Const 0) "<state>" |} ].

(** [test_basic_raise_codegen]: a single [RaiseError]. *)
Definition raise_instructions : list Instruction :=
  [ {| id := "raise"; depends_on := [];
       insn := RaiseError "TimeStepUnderflow" "underflow" |} ].

(** [test_basic_fail_step_codegen]: a single [AbortStep]. *)
Definition fail_step_instructions : list Instruction :=
  [ {| id := "fail"; depends_on := []; insn := AbortStep |} ].

(** [test_local_name_distinctness]: two locals [y^] and [y*], assigned
    [a] and [b] (1 and 0 in the test), and their sum emitted. *)
Definition local_names_instructions (a b : Z) : list Instruction :=
  [ {| id := "assign_y^"; depends_on := []; insn := Assign "y^" (Const a) |};
    {| id := "assign_y*"; depends_on := []; insn := Assign "y*" (Const b) |};
    {| id := "return"; depends_on := ["assign_y^"; "assign_y*"];
       insn := Emit (Const 0) "final" (Sum (Var "y^") (Var "y*")) "y" |} ].

(** What [create_with_init_and_step] builds from an empty initialization
    root set. *)
Definition two_state_program (I : list Instruction) (step_dep_on : list string)
    : Program :=
  {| instructions := I;
     states := [("initialization", {| root_ids := []; next_state := "primary" |});
                ("primary", {| root_ids := step_dep_on; next_state := "primary" |})];
     initial_state := "initialization" |}.

(** A target that accepts every name as an identifier. *)
Definition any_name_is_legal (name : string) : bool := true.
Definition no_sanitizing (name : string) : string := name.

End Scenarios.

(** ** Example stores for [resolve_args] *)

Module ResolveExamples.
Import Utils.

(** [resolve_args(["a", "b", "c"], {"c": 30}, {0: 1, "b": 2})] *)
Definition abc_defaults : gmap key Z := {[ KName "c" := 30%Z ]}.
Definition abc_args : gmap key Z := {[ KPos 0 := 1%Z; KName "b" := 2%Z ]}.
Definition abc_store : gmap positive (gmap key Z) :=
  {[ 1%positive := abc_defaults; 2%positive := abc_args ]}.

(** [resolve_args(["a", "a"], {}, {"a": 1})] *)
Definition aa_args : gmap key Z := {[ KName "a" := 1%Z ]}.
Definition aa_store : gmap positive (gmap key Z) :=
  {[ 1%positive := ∅; 2%positive := aa_args ]}.

(** [resolve_args(["a", "a"], {"a": 2}, {"a": 1})] *)
Definition aa_defaults : gmap key Z := {[ KName "a" := 2%Z ]}.
Definition aa_store_with_default : gmap positive (gmap key Z) :=
  {[ 1%positive := aa_defaults; 2%positive := aa_args ]}.

End ResolveExamples.

(** ** More example stores for [resolve_args] *)

Module MoreResolveExamples.
Import Utils.

(** [resolve_args(["a"], {}, {0: 1, 1: 2})]: one positional argument too
    many. *)
Definition surplus_args : gmap key Z := {[ KPos 0 := 1%Z; KPos 1 := 2%Z ]}.
Definition surplus_store : gmap positive (gmap key Z) :=
  {[ 1%positive := ∅; 2%positive := surplus_args ]}.

(** [resolve_args(["a", "b"], {"a": 1, "b": 2}, {})]: defaults only. *)
Definition ab_defaults : gmap key Z := {[ KName "a" := 1%Z; KName "b" := 2%Z ]}.
Definition defaults_only_store : gmap positive (gmap key Z) :=
  {[ 1%positive := ab_defaults; 2%positive := ∅ ]}.

(** [resolve_args(["a", "b"], {"a": 1}, {})]: no default for ["b"]. *)
Definition a_default : gmap key Z := {[ KName "a" := 1%Z ]}.
Definition missing_default_store : gmap positive (gmap key Z) :=
  {[ 1%positive := a_default; 2%positive := ∅ ]}.

(** [resolve_args(["a", "b"], {}, {0: 10, 1: 20})]: positional only. *)
Definition positional_args : gmap key Z := {[ KPos 0 := 10%Z; KPos 1 := 20%Z ]}.
Definition positional_store : gmap positive (gmap key Z) :=
  {[ 1%positive := ∅; 2%positive := positional_args ]}.

(** [resolve_args(["a", "b"], {}, {"a": 10, "b": 20})]: keywords only. *)
Definition keyword_args : gmap key Z := {[ KName "a" := 10%Z; KName "b" := 20%Z ]}.
Definition keyword_store : gmap positive (gmap key Z) :=
  {[ 1%positive := ∅; 2%positive := keyword_args ]}.

(** Two default dictionaries that differ on an unlisted name only. *)
Definition abz_defaults : gmap key Z :=
  {[ KName "a" := 1%Z; KName "b" := 2%Z; KName "z" := 26%Z ]}.
Definition two_defaults_store : gmap positive (gmap key Z) :=
  {[ 1%positive := ab_defaults; 2%positive := ∅; 3%positive := abz_defaults ]}.

(** The second argument of [positional_args] given by name instead, and a
    store that holds both dictionaries. *)
Definition second_by_name_args : gmap key Z :=
  <[KName "b" := 20%Z]> (delete (KPos 1) positional_args).
Definition interchange_store : gmap positive (gmap key Z) :=
  {[ 1%positive := ∅; 2%positive := positional_args;
     3%positive := second_by_name_args ]}.

(** Name sets for [get_unique_name]. *)
Definition y_names : gset string := {[ "y"; "y0" ]}.
Definition yz_names : gset string := {[ "y"; "y0"; "z" ]}.

End MoreResolveExamples.

(** ** What [set_up] gives each name, and two more programs *)

Module SetUp.
Import Stepper.





End SetUp.

(** * Properties *)

Section string_facts.

Lemma startswith_spec var p :
    startswith var p = true ↔ ∃ rest, var = p +:+ rest.
  Proof.
    revert var. induction p as [|c p IH]; intros var; simpl.
    - split; [intros _; by exists var | done].
    - destruct var as [|d var].
      + split; [done | by intros [rest ?]].
      + rewrite andb_true_iff, IH. split.
        * intros [Hc [rest ->]]. apply Ascii.eqb_eq in Hc as ->. by exists rest.
        * intros [rest Hr]. injection Hr as -> ->. split; [apply Ascii.eqb_refl | by exists rest].
  Qed.

Lemma startswith_append p rest : startswith (p +:+ rest) p = true.
  Proof. apply startswith_spec. by exists rest. Qed.

Lemma append_empty_r s : s +:+ "" = s.
  Proof.
    induction s as [|c s IH]; [done|].
    change (String c s +:+ "") with (String c (s +:+ "")). by rewrite IH.
  Qed.

Lemma str_inj n m : str n = str m → n = m.
  Proof. unfold str. apply (inj pretty). Qed.

Lemma append_str_inj prefix n m : prefix +:+ str n = prefix +:+ str m → n = m.
  Proof. intros H. apply str_inj. by apply (inj (String.append prefix)) in H. Qed.

End string_facts.

Module UtilsFacts.
Import Utils.

Lemma is_in_name_sets_spec name_sets var :
  is_in_name_sets name_sets var = true ↔ ∃ name_set, name_set ∈ name_sets ∧ var ∈ name_set.
Proof.
  induction name_sets as [|X rest IH]; simpl.
  - split; [done | intros (? & H & _); by apply elem_of_nil in H].
  - case_bool_decide as HX.
    + split; [intros _; exists X; split; [left | done] | done].
    + rewrite IH. split.
      * intros (Y & ? & ?). exists Y. split; [by right | done].
      * intros (Y & HY & ?). apply elem_of_cons in HY as [-> | ?]; [done | by exists Y].
Qed.

Lemma is_in_name_sets_union name_sets var :
  is_in_name_sets name_sets var = true ↔ var ∈ ⋃ name_sets.
Proof. rewrite is_in_name_sets_spec, elem_of_union_list. done. Qed.

End UtilsFacts.

Module UniqueNameFacts.
Import Utils UtilsFacts.

Section probing.
Variables (prefix : string) (name_sets : list (gset string)).

Let taken (n : nat) : Prop := prefix +:+ str n ∈ ⋃ name_sets.

(** Pigeonhole: if the first [b] candidates are all taken, the name sets
    hold at least [b] names. *)
Lemma taken_bound b : (∀ m, m < b → taken m) → b ≤ size (⋃ name_sets).
  Proof.
    intros Hall.
    set (cands := (λ m, prefix +:+ str m) <$> seq 0 b).
    assert (NoDup cands) as Hnd.
    { apply NoDup_fmap_2; [intros n m; apply append_str_inj | apply NoDup_seq]. }
    assert (list_to_set cands ⊆ ⋃ name_sets) as Hsub.
    { intros x Hx. apply elem_of_list_to_set in Hx.
      apply list_elem_of_fmap in Hx as (m & -> & Hm).
      apply Hall. apply elem_of_seq in Hm. lia. }
    apply subseteq_size in Hsub.
    rewrite size_list_to_set in Hsub by done.
    unfold cands in Hsub. by rewrite length_fmap, length_seq in Hsub.
  Qed.

(** Below any bound, either every candidate is taken or there is a least
    free one. *)
Lemma least_free_below b :
    (∀ m, m < b → taken m) ∨
    (∃ n, n < b ∧ ¬ taken n ∧ ∀ m, m < n → taken m).
  Proof.
    induction b as [|b [IH | (n & ? & ? & ?)]].
    - left. lia.
    - destruct (decide (taken b)) as [Hb | Hb].
      + left. intros m Hm. destruct (decide (m = b)) as [-> | ]; [done | apply IH; lia].
      + right. exists b. split_and!; [lia | done | done].
    - right. exists n. split_and!; [lia | done | done].
  Qed.

Lemma least_free :
    ∃ n, n ≤ size (⋃ name_sets) ∧ ¬ taken n ∧ ∀ m, m < n → taken m.
  Proof.
    destruct (least_free_below (S (size (⋃ name_sets)))) as [Hall | (n & ? & ? & ?)].
    - apply taken_bound in Hall. lia.
    - exists n. split_and!; [lia | done | done].
  Qed.

(** The loop stops at the first free suffix at or after its start, given
    fuel for the iterations up to it. *)
Lemma probe_reaches n fuel suffix :
    suffix ≤ n → n - suffix < fuel →
    (∀ m, suffix ≤ m → m < n → taken m) → ¬ taken n →
    probe fuel prefix name_sets suffix = Some (prefix +:+ str n).
  Proof.
    revert suffix. induction fuel as [|fuel IH]; intros suffix Hle Hfuel Hbelow Hfree; [lia|].
    simpl. destruct (is_in_name_sets _ _) eqn:Hin.
    - apply is_in_name_sets_union in Hin.
      assert (suffix ≠ n) by (intros ->; done).
      apply IH; [lia | lia | intros m ??; apply Hbelow; lia | done].
    - destruct (decide (suffix = n)) as [-> | Hne]; [done|].
      assert (taken suffix) as Ht by (apply Hbelow; lia).
      apply is_in_name_sets_union in Ht. unfold str in *. congruence.
  Qed.

End probing.

Lemma not_in_name_sets name_sets var :
  is_in_name_sets name_sets var = false ↔ var ∉ ⋃ name_sets.
Proof.
  rewrite <- is_in_name_sets_union. by destruct (is_in_name_sets name_sets var).
Qed.

Lemma elem_of_union_name_sets (name_sets : list (gset string)) var :
  var ∈ ⋃ name_sets ↔ ∃ name_set, name_set ∈ name_sets ∧ var ∈ name_set.
Proof. apply elem_of_union_list. Qed.

(** With [enough_fuel] the function returns, and what it returns is in none
    of the name sets. *)
Lemma get_unique_name_fresh prefix name_sets :
  ∃ name, get_unique_name (enough_fuel name_sets) prefix name_sets = Some name
          ∧ name ∉ ⋃ name_sets.
Proof.
  unfold get_unique_name.
  destruct (is_in_name_sets name_sets prefix) eqn:Hin; cbn [negb].
  - destruct (least_free prefix name_sets) as (n & Hn & Hfree & Hbelow).
    exists (prefix +:+ str n). split; [|done].
    apply probe_reaches; [lia | unfold enough_fuel; lia | intros; by apply Hbelow | done].
  - exists prefix. split; [done | by apply not_in_name_sets].
Qed.

End UniqueNameFacts.

Module UtilsClaims.
Import Utils UtilsFacts UniqueNameFacts.

(** C4. [is_state_variable] is a total classification on the literal prefix
    of a name: it answers [true] exactly for the names ["<t>"] and ["<dt>"]
    and for the names that begin with ["<state>"], ["<p>"],
    ["<ret_time_id>"], ["<ret_time>"] or ["<ret_state>"], and [false] for
    every other name; in particular for function symbols (["<func>..."])
    and for plain locals (names that do not begin with ["<"]). *)
Theorem is_state_variable_classification :
  ∀ var : string,
    (is_state_variable var = true ↔
       var = "<t>" ∨ var = "<dt>"
       ∨ (∃ rest, var = "<state>" +:+ rest)
       ∨ (∃ rest, var = "<p>" +:+ rest)
       ∨ (∃ rest, var = "<ret_time_id>" +:+ rest)
       ∨ (∃ rest, var = "<ret_time>" +:+ rest)
       ∨ (∃ rest, var = "<ret_state>" +:+ rest))
    ∧ (is_state_variable var = false ↔
       ¬ (var = "<t>" ∨ var = "<dt>"
          ∨ (∃ rest, var = "<state>" +:+ rest)
          ∨ (∃ rest, var = "<p>" +:+ rest)
          ∨ (∃ rest, var = "<ret_time_id>" +:+ rest)
          ∨ (∃ rest, var = "<ret_time>" +:+ rest)
          ∨ (∃ rest, var = "<ret_state>" +:+ rest)))
    ∧ is_state_variable ("<func>" +:+ var) = false
    ∧ (startswith var "<" = false → is_state_variable var = false).
Proof.
  intros var.
  assert (is_state_variable var = true ↔
       var = "<t>" ∨ var = "<dt>"
       ∨ (∃ rest, var = "<state>" +:+ rest)
       ∨ (∃ rest, var = "<p>" +:+ rest)
       ∨ (∃ rest, var = "<ret_time_id>" +:+ rest)
       ∨ (∃ rest, var = "<ret_time>" +:+ rest)
       ∨ (∃ rest, var = "<ret_state>" +:+ rest)) as Hiff.
  { unfold is_state_variable.
    rewrite <- !startswith_spec, <- !String.eqb_eq.
    destruct (String.eqb var "<t>"), (String.eqb var "<dt>"),
      (startswith var "<state>"), (startswith var "<p>"),
      (startswith var "<ret_time_id>"), (startswith var "<ret_time>"),
      (startswith var "<ret_state>"); simpl; intuition congruence. }
  split_and!.
  - exact Hiff.
  - rewrite <- Hiff. by destruct (is_state_variable var).
  - reflexivity.
  - destruct var as [|c var]; [done|]. unfold is_state_variable. simpl.
    intros Hc. rewrite andb_false_iff in Hc. destruct Hc as [Hc | Hc]; [|done].
    by rewrite !Hc.
Qed.

(** C1. With enough fuel for the probing loop, [get_unique_name] returns the
    prefix itself when the prefix occurs in none of the name sets, and
    otherwise the prefix followed by the decimal rendering of the least
    [n >= 0] for which that name occurs in none of them; the result always
    begins with the prefix and occurs in none of the name sets. *)
Theorem get_unique_name_spec :
  ∀ (prefix : string) (name_sets : list (gset string)),
  ∃ name,
    (∀ fuel, enough_fuel name_sets ≤ fuel →
       get_unique_name fuel prefix name_sets = Some name)
    ∧ ((∀ name_set, name_set ∈ name_sets → prefix ∉ name_set) → name = prefix)
    ∧ ((∃ name_set, name_set ∈ name_sets ∧ prefix ∈ name_set) →
         ∃ n, name = prefix +:+ str n
              ∧ (∀ name_set, name_set ∈ name_sets → prefix +:+ str n ∉ name_set)
              ∧ (∀ m, m < n → ∃ name_set,
                    name_set ∈ name_sets ∧ prefix +:+ str m ∈ name_set))
    ∧ startswith name prefix = true
    ∧ (∀ name_set, name_set ∈ name_sets → name ∉ name_set).
Proof.
  intros prefix name_sets. unfold get_unique_name.
  destruct (is_in_name_sets name_sets prefix) eqn:Hin; simpl.
  - destruct (least_free prefix name_sets) as (n & Hn & Hfree & Hbelow).
    assert (∀ name_set, name_set ∈ name_sets → prefix +:+ str n ∉ name_set) as Hfree'.
    { intros X HX Hmem. apply Hfree, elem_of_union_name_sets. eauto. }
    exists (prefix +:+ str n). split_and!.
    + intros fuel Hfuel. unfold enough_fuel in Hfuel.
      apply probe_reaches; [lia | lia | intros; apply Hbelow; lia | done].
    + intros Hnone. apply is_in_name_sets_spec in Hin as (X & HX & Hmem).
      by destruct (Hnone X HX).
    + intros _. exists n. split_and!; [done | done |].
      intros m Hm. by apply elem_of_union_name_sets, Hbelow.
    + apply startswith_append.
    + done.
  - apply not_in_name_sets in Hin.
    assert (∀ name_set, name_set ∈ name_sets → prefix ∉ name_set) as Hnone.
    { intros X HX Hmem. apply Hin, elem_of_union_name_sets. eauto. }
    exists prefix. split_and!; [done | done | | | done].
    + intros (X & HX & Hmem). by destruct (Hnone X HX).
    + rewrite <- (append_empty_r prefix) at 1. apply startswith_append.
Qed.

(** C8. [get_unique_name] terminates on every input: the probing loop
    started at suffix 0 reaches some [n], no larger than the number of names
    in the name sets, whose candidate name is in none of the name sets, and
    stops there; so any fuel above that number makes the function return. *)
Theorem get_unique_name_terminates :
  ∀ (prefix : string) (name_sets : list (gset string)),
  ∃ n, n ≤ size (⋃ name_sets)
       ∧ is_in_name_sets name_sets (prefix +:+ str n) = false
       ∧ (∀ fuel, n < fuel →
            probe fuel prefix name_sets 0 = Some (prefix +:+ str n))
       ∧ (∀ fuel, n < fuel → is_Some (get_unique_name fuel prefix name_sets)).
Proof.
  intros prefix name_sets.
  destruct (least_free prefix name_sets) as (n & Hn & Hfree & Hbelow).
  assert (∀ fuel, n < fuel → probe fuel prefix name_sets 0 = Some (prefix +:+ str n)) as Hp.
  { intros fuel Hfuel. apply probe_reaches; [lia | lia | intros; by apply Hbelow | done]. }
  exists n. split_and!; [done | by apply not_in_name_sets | done |].
  intros fuel Hfuel. unfold get_unique_name.
  destruct (negb _); [done | rewrite Hp by done; done].
Qed.

End UtilsClaims.

Module ResolveFacts.
Import Utils ResolveSpec.

Section on_values.
Context {V : Type}.
Implicit Types (A D : gmap key V) (arg_names : list string).

Lemma key_pos_ne (i j : nat) : i ≠ j → KPos (Z.of_nat i) ≠ KPos (Z.of_nat j).
  Proof. intros Hne Heq. injection Heq as Heq. lia. Qed.

(** The loop raises nothing but [TypeError]. *)
Lemma loop_on_exn D i arg_names A args e A' :
    loop_on D i arg_names A args = (inl e, A') → ∃ reason, e = TypeError reason.
  Proof.
    revert i A args. induction arg_names as [|name rest IH]; intros i A args; simpl.
    - done.
    - destruct (A !! KPos (Z.of_nat i)) as [v|].
      + case_bool_decide; [intros [= <- _]; eauto | apply IH].
      + destruct (A !! KName name) as [v|]; [apply IH|].
        destruct (D !! KName name) as [v|]; [apply IH | intros [= <- _]; eauto].
  Qed.

(** The loop raises exactly when some name is given twice or not at all. *)
Lemma loop_on_fail_iff D i arg_names A args :
    NoDup arg_names →
    (∃ e, (loop_on D i arg_names A args).1 = inl e) ↔
    (∃ j name, arg_names !! j = Some name
               ∧ (twice_at A (i + j) name ∨ missing_at D A (i + j) name)).
  Proof.
    intros Hnd. revert i A args.
    induction Hnd as [|name rest Hnotin Hnd IH]; intros i A args; simpl.
    - split; [by intros [e ?] | by intros (j & name & ? & _)].
    - assert (∀ A1 v,
        (∀ j name', rest !! j = Some name' →
           A1 !! KPos (Z.of_nat (S i + j)) = A !! KPos (Z.of_nat (i + S j))
           ∧ A1 !! KName name' = A !! KName name') →
        ¬ twice_at A i name → ¬ missing_at D A i name →
        (∃ e, (loop_on D (S i) rest A1 (args ++ [v])).1 = inl e) ↔
        (∃ j name', (name :: rest) !! j = Some name'
                    ∧ (twice_at A (i + j) name' ∨ missing_at D A (i + j) name')))
        as Hstep.
      { intros A1 v Hsame Hnt Hnm. rewrite IH. split.
        - intros (j & name' & Hj & Hc). exists (S j), name'. split; [done|].
          destruct (Hsame j name' Hj) as [HP HN].
          unfold twice_at, missing_at in *. rewrite <- HP, <- HN. done.
        - intros (j & name' & Hj & Hc). destruct j as [|j]; simpl in Hj.
          + injection Hj as <-. rewrite Nat.add_0_r in Hc. by destruct Hc.
          + exists j, name'. split; [done|].
            destruct (Hsame j name' Hj) as [HP HN].
            unfold twice_at, missing_at in *. rewrite HP, HN. done. }
      destruct (A !! KPos (Z.of_nat i)) as [v|] eqn:Hpos.
      + case_bool_decide as Hkw.
        * rewrite lookup_delete_ne in Hkw by done.
          split; [intros _ | eauto]. exists 0, name. split; [done|]. left.
          unfold twice_at. rewrite Nat.add_0_r, Hpos. eauto.
        * rewrite lookup_delete_ne in Hkw by done. apply Hstep.
          -- intros j name' Hj.
             rewrite !lookup_delete_ne by (done || (apply key_pos_ne; lia)).
             split; [do 3 f_equal; lia | done].
          -- intros [_ ?]. done.
          -- intros [Hn _]. congruence.
      + destruct (A !! KName name) as [v|] eqn:Hkw.
        * apply Hstep.
          -- intros j name' Hj.
             assert (name ≠ name') as Hne.
             { intros ->. apply Hnotin. by eapply list_elem_of_lookup_2. }
             rewrite !lookup_delete_ne by congruence.
             split; [do 3 f_equal; lia | done].
          -- intros [[? Hn] _]. congruence.
          -- intros (_ & Hn & _). congruence.
        * destruct (D !! KName name) as [v|] eqn:Hdef.
          -- apply Hstep.
             ++ intros j name' Hj. split; [do 3 f_equal; lia | done].
             ++ intros [[? Hn] _]. congruence.
             ++ intros (_ & _ & Hn). congruence.
          -- split; [intros _ | eauto]. exists 0, name. split; [done|]. right.
             unfold missing_at. by rewrite Nat.add_0_r.
  Qed.

(** On success the loop has appended one value per name, each the
    binding of that name, and has removed from the copy every key it
    looked at and no other. *)
Lemma loop_on_success D i arg_names A args res A' :
    NoDup arg_names →
    loop_on D i arg_names A args = (inr res, A') →
    ∃ vals, res = args ++ vals
      ∧ length vals = length arg_names
      ∧ (∀ j name, arg_names !! j = Some name →
           vals !! j = binding D A (i + j) name)
      ∧ (∀ k, covered i arg_names k → A' !! k = None)
      ∧ (∀ k, ¬ covered i arg_names k → A' !! k = A !! k).
  Proof.
    intros Hnd. revert i A args.
    induction Hnd as [|name rest Hnotin Hnd IH]; intros i A args; simpl.
    - intros [= <- <-]. exists []. rewrite app_nil_r. split_and!; try done.
      intros k [(j & Hj & _) | (name & Hin & _)]; [simpl in Hj; lia | by apply elem_of_nil in Hin].
    - assert (∀ A1 v,
        binding D A i name = Some v →
        A1 !! KPos (Z.of_nat i) = None → A1 !! KName name = None →
        (∀ k, k ≠ KPos (Z.of_nat i) → k ≠ KName name → A1 !! k = A !! k) →
        loop_on D (S i) rest A1 (args ++ [v]) = (inr res, A') →
        ∃ vals, res = args ++ vals
          ∧ length vals = S (length rest)
          ∧ (∀ j name', (name :: rest) !! j = Some name' →
               vals !! j = binding D A (i + j) name')
          ∧ (∀ k, covered i (name :: rest) k → A' !! k = None)
          ∧ (∀ k, ¬ covered i (name :: rest) k → A' !! k = A !! k)) as Hstep.
      { intros A1 v Hb HP HN Hother Hrun.
        destruct (IH _ _ _ Hrun) as (vals & -> & Hlen & Hvals & Hcov & Hnot).
        assert (∀ k, covered i (name :: rest) k ↔
                     k = KPos (Z.of_nat i) ∨ k = KName name ∨ covered (S i) rest k) as Hc.
        { intros k. unfold covered. split.
          - intros [(j & Hj & ->) | (name' & Hin & ->)].
            + destruct j as [|j]; [left; by rewrite Nat.add_0_r|].
              right; right; left. exists j. simpl in Hj.
              split; [lia | do 2 f_equal; lia].
            + apply elem_of_cons in Hin as [-> | Hin]; [by right; left|].
              right; right; right. eauto.
          - intros [-> | [-> | [(j & Hj & ->) | (name' & Hin & ->)]]].
            + left. exists 0. simpl. split; [lia | by rewrite Nat.add_0_r].
            + right. exists name. split; [left | done].
            + left. exists (S j). simpl. split; [lia | do 2 f_equal; lia].
            + right. exists name'. split; [by right | done]. }
        exists (v :: vals). split_and!.
        - by rewrite <- app_assoc.
        - simpl. by rewrite Hlen.
        - intros j name' Hj. destruct j as [|j]; simpl in Hj.
          + injection Hj as <-. by rewrite Nat.add_0_r, Hb.
          + simpl. rewrite (Hvals j name' Hj).
            assert (name ≠ name') as Hne.
            { intros ->. apply Hnotin. by eapply list_elem_of_lookup_2. }
            unfold binding. replace (i + S j) with (S i + j) by lia.
            rewrite !Hother by (congruence || (apply not_eq_sym, key_pos_ne; lia)).
            done.
        - intros k Hk. apply Hc in Hk as [-> | [-> | Hk]]; [| | by apply Hcov].
          + rewrite Hnot; [done|].
            intros [(j & _ & Hj) | (? & _ & ?)]; [|done].
            injection Hj as Hj. lia.
          + rewrite Hnot; [done|].
            intros [(? & _ & ?) | (name' & Hin & [= <-])]; done.
        - intros k Hk. rewrite Hc in Hk.
          rewrite Hnot by tauto. apply Hother; tauto. }
      unfold binding in Hstep.
      destruct (A !! KPos (Z.of_nat i)) as [v|] eqn:Hpos.
      + case_bool_decide as Hkw; [done|].
        apply Hstep; [done | apply lookup_delete_eq | |].
        * by apply eq_None_not_Some.
        * intros k ? _. by rewrite lookup_delete_ne.
      + destruct (A !! KName name) as [v|] eqn:Hkw.
        * apply Hstep; [done | | apply lookup_delete_eq |].
          -- by rewrite lookup_delete_ne.
          -- intros k _ ?. by rewrite lookup_delete_ne.
        * destruct (D !! KName name) as [v|] eqn:Hdef; [|done].
          apply Hstep; done.
  Qed.

(** [resolve_on] raises exactly under the three conditions. *)
Lemma resolve_on_fail_iff arg_names D A :
    NoDup arg_names →
    (∃ e, resolve_on arg_names D A = inl e) ↔
    supplied_twice arg_names A ∨ unspecified arg_names D A ∨ leftover arg_names A.
  Proof.
    intros Hnd. pose proof (loop_on_fail_iff D 0 arg_names A [] Hnd) as Hfail.
    simpl in Hfail. unfold resolve_on.
    destruct (loop_on D 0 arg_names A []) as [[e | res] A'] eqn:Hrun; simpl in Hfail.
    - split; [intros _ | eauto].
      destruct Hfail as [(j & name & Hj & [Ht | Hm]) _]; [eauto | |].
      + left. by exists j, name.
      + right; left. by exists j, name.
    - destruct (loop_on_success _ _ _ _ _ _ _ Hnd Hrun) as (vals & _ & Hlen & _ & Hcov & Hnot).
      assert (¬ supplied_twice arg_names A) as Hnt.
      { intros (j & name & Hj & Ht). destruct Hfail as [_ [e He]]; [|done].
        exists j, name. eauto. }
      assert (¬ unspecified arg_names D A) as Hnu.
      { intros (j & name & Hj & Hm). destruct Hfail as [_ [e He]]; [|done].
        exists j, name. eauto. }
      case_bool_decide as Hempty; simpl.
      + split; [by intros [e ?]|]. intros [? | [? | (k & Hk & Hfree)]]; [done | done |].
        exfalso. subst A'. destruct Hk as [v Hk].
        assert (¬ covered 0 arg_names k) as Hnc.
        { intros [(j & Hj & ->) | (name & Hin & ->)].
          - destruct (lookup_lt_is_Some_2 arg_names j Hj) as [name Hname].
            apply (Hfree j name Hname). unfold consumed_key.
            rewrite bool_decide_eq_true_2; [done | eauto].
          - apply list_elem_of_lookup in Hin as [j Hj].
            apply (Hfree j name Hj). unfold consumed_key.
            case_bool_decide as Hpos.
            + destruct Hnt. exists j, name. split; [done|]. split; eauto.
            + rewrite bool_decide_eq_true_2; [done | eauto]. }
        specialize (Hnot k Hnc). rewrite lookup_empty in Hnot. congruence.
      + split; [intros _ | eauto]. right; right.
        apply map_choose in Hempty as (k & v & Hk). exists k.
        assert (¬ covered 0 arg_names k) as Hnc.
        { intros Hc. apply Hcov in Hc. congruence. }
        split; [rewrite <- (Hnot k Hnc); eauto|].
        intros j name Hj Hcons. apply Hnc. unfold consumed_key in Hcons.
        repeat case_bool_decide; simplify_eq.
        * left. exists j. split; [by eapply lookup_lt_Some | done].
        * right. exists name. split; [by eapply list_elem_of_lookup_2 | done].
  Qed.

Lemma resolve_on_exn arg_names D A e :
    resolve_on arg_names D A = inl e → ∃ reason, e = TypeError reason.
  Proof.
    unfold resolve_on.
    destruct (loop_on D 0 arg_names A []) as [[e' | res] A'] eqn:Hrun.
    - intros [= <-]. by eapply loop_on_exn.
    - destruct (negb _); [intros [= <-]; eauto | done].
  Qed.

Lemma resolve_on_success arg_names D A args :
    NoDup arg_names →
    resolve_on arg_names D A = inr args →
    length args = length arg_names
    ∧ ∀ i name, arg_names !! i = Some name → args !! i = binding D A i name.
  Proof.
    intros Hnd. unfold resolve_on.
    destruct (loop_on D 0 arg_names A []) as [[e | res] A'] eqn:Hrun; [done|].
    destruct (negb _); [done|]. intros [= ->].
    destruct (loop_on_success _ _ _ _ _ _ _ Hnd Hrun) as (vals & -> & Hlen & Hvals & _).
    split; [done|]. intros i name Hi. by apply Hvals.
  Qed.

End on_values.

(** The store-passing program agrees with its reading on values. *)
Section on_store.
Context {V : Type}.
Implicit Types (A D : gmap key V) (h : gmap positive (gmap key V)).

Lemma resolve_loop_run (c dd : positive) D arg_names :
    c ≠ dd →
    ∀ i A args h,
      h !! c = Some A → h !! dd = Some D →
      resolve_loop c dd i arg_names args h =
        ((loop_on D i arg_names A args).1, <[c := (loop_on D i arg_names A args).2]> h).
  Proof.
    intros Hne. induction arg_names as [|name rest IH]; intros i A args h Hc Hd; simpl.
    - unfold ret. by rewrite insert_id.
    - unfold bind, dict_contains, dict_pop, dict_getitem, raise.
      rewrite (lookup_total_correct _ _ _ Hc).
      destruct (A !! KPos (Z.of_nat i)) as [v|] eqn:Hpos.
      + rewrite bool_decide_eq_true_2 by eauto.
        rewrite (lookup_total_correct _ _ _ Hc), Hpos, lookup_total_insert_eq.
        case_bool_decide; [done|].
        rewrite (IH _ (delete (KPos (Z.of_nat i)) A)).
        * by rewrite insert_insert_eq.
        * apply lookup_insert_eq.
        * by rewrite lookup_insert_ne.
      + rewrite bool_decide_eq_false_2 by (intros [? ?]; congruence).
        rewrite (lookup_total_correct _ _ _ Hc).
        destruct (A !! KName name) as [v|] eqn:Hkw.
        * rewrite bool_decide_eq_true_2 by eauto.
          rewrite (lookup_total_correct _ _ _ Hc), Hkw.
          rewrite (IH _ (delete (KName name) A)).
          -- by rewrite insert_insert_eq.
          -- apply lookup_insert_eq.
          -- by rewrite lookup_insert_ne.
        * rewrite bool_decide_eq_false_2 by (intros [? ?]; congruence).
          rewrite (lookup_total_correct _ _ _ Hd).
          destruct (D !! KName name) as [v|] eqn:Hdef.
          -- rewrite bool_decide_eq_true_2 by eauto.
             rewrite (lookup_total_correct _ _ _ Hd), Hdef. by apply IH.
          -- rewrite bool_decide_eq_false_2 by (intros [? ?]; congruence).
             by rewrite insert_id.
  Qed.

Lemma resolve_args_run arg_names (dd ad : positive) D A h :
    h !! dd = Some D → h !! ad = Some A →
    resolve_args arg_names dd ad h =
      (resolve_on arg_names D A,
       <[fresh (dom h) := (loop_on D 0 arg_names A []).2]> h).
  Proof.
    intros Hd Ha. unfold resolve_args, bind at 1, dict_copy.
    pose proof (is_fresh (dom h)) as Hfresh.
    set (c := fresh (dom h)) in *.
    assert (c ≠ dd) as Hne.
    { intros ->. apply Hfresh. apply elem_of_dom. eauto. }
    rewrite (lookup_total_correct _ _ _ Ha).
    unfold bind at 1.
    rewrite (resolve_loop_run c dd D arg_names Hne 0 A []);
      [| apply lookup_insert_eq | by rewrite lookup_insert_ne].
    rewrite insert_insert_eq. unfold resolve_on.
    destruct (loop_on D 0 arg_names A []) as [[e | res] A'] eqn:Hrun; simpl; [done|].
    unfold bind, dict_truth. rewrite lookup_total_insert_eq.
    by destruct (negb _).
  Qed.

End on_store.

End ResolveFacts.

Module ResolveClaims.
Import Utils ResolveSpec ResolveFacts.

(** C2, as amended.  For argument names without repetition, [resolve_args]
    raises [TypeError] if and only if some argument is supplied both by its
    positional index and by its name, or some name has neither a positional
    entry, nor a keyword entry, nor a default, or entries of [arg_dict]
    remain once each name has consumed its binding; otherwise it returns a
    list. *)
Theorem resolve_args_fails_iff :
  ∀ {V : Type} (arg_names : list string) (default_dict arg_dict : positive)
    (D A : gmap key V) (h : gmap positive (gmap key V)),
    NoDup arg_names →
    h !! default_dict = Some D → h !! arg_dict = Some A →
    ((∃ reason, (resolve_args arg_names default_dict arg_dict h).1
                = inl (TypeError reason)) ↔
       supplied_twice arg_names A ∨ unspecified arg_names D A ∨ leftover arg_names A)
    ∧ (¬ (supplied_twice arg_names A ∨ unspecified arg_names D A
          ∨ leftover arg_names A) →
       ∃ args, (resolve_args arg_names default_dict arg_dict h).1 = inr args).
Proof.
  intros V arg_names dd ad D A h Hnd Hd Ha.
  rewrite (resolve_args_run arg_names dd ad D A h Hd Ha). simpl.
  pose proof (resolve_on_fail_iff arg_names D A Hnd) as Hiff.
  split.
  - rewrite <- Hiff. split; [intros [r Hr]; eauto|].
    intros [e He]. destruct (resolve_on_exn _ _ _ _ He) as [r ->]. eauto.
  - intros Hnone. destruct (resolve_on arg_names D A) as [e | args] eqn:Hres; [|eauto].
    destruct Hnone. apply Hiff. eauto.
Qed.

(** C3, as amended.  For argument names without repetition, a successful
    [resolve_args] returns one value per name, in the order of the names:
    the value at position [i] is [arg_dict[i]] if that key is present, else
    [arg_dict[name]] if that key is present, else [default_dict[name]]. *)
Theorem resolve_args_returns_bindings :
  ∀ {V : Type} (arg_names : list string) (default_dict arg_dict : positive)
    (D A : gmap key V) (h : gmap positive (gmap key V)) (args : list V),
    NoDup arg_names →
    h !! default_dict = Some D → h !! arg_dict = Some A →
    (resolve_args arg_names default_dict arg_dict h).1 = inr args →
    length args = length arg_names
    ∧ ∀ i name, arg_names !! i = Some name →
        ∃ v, args !! i = Some v ∧ binding D A i name = Some v.
Proof.
  intros V arg_names dd ad D A h args Hnd Hd Ha.
  rewrite (resolve_args_run arg_names dd ad D A h Hd Ha). simpl. intros Hres.
  destruct (resolve_on_success _ _ _ _ Hnd Hres) as [Hlen Hvals].
  split; [done|]. intros i name Hi.
  destruct (lookup_lt_is_Some_2 args i) as [v Hv].
  { rewrite Hlen. by eapply lookup_lt_Some. }
  exists v. split; [done|]. by rewrite <- (Hvals i name Hi).
Qed.

(** C10.  [resolve_args] mutates neither of its inputs, whether it returns
    or raises: afterwards the store holds the same contents for
    [default_dict] and [arg_dict], and for every other object that existed
    before the call; a second resolution with the same dictionaries gives
    the same outcome. *)
Theorem resolve_args_preserves_inputs :
  ∀ {V : Type} (arg_names : list string) (default_dict arg_dict : positive)
    (D A : gmap key V) (h : gmap positive (gmap key V)),
    h !! default_dict = Some D → h !! arg_dict = Some A →
    (resolve_args arg_names default_dict arg_dict h).2 !! default_dict = Some D
    ∧ (resolve_args arg_names default_dict arg_dict h).2 !! arg_dict = Some A
    ∧ (∀ l X, h !! l = Some X →
         (resolve_args arg_names default_dict arg_dict h).2 !! l = Some X)
    ∧ (resolve_args arg_names default_dict arg_dict
         (resolve_args arg_names default_dict arg_dict h).2).1
      = (resolve_args arg_names default_dict arg_dict h).1.
Proof.
  intros V arg_names dd ad D A h Hd Ha.
  rewrite (resolve_args_run arg_names dd ad D A h Hd Ha). simpl.
  assert (∀ l X, h !! l = Some X →
            <[fresh (dom h) := (loop_on D 0 arg_names A []).2]> h !! l = Some X) as Hframe.
  { intros l X Hl. rewrite lookup_insert_ne; [done|].
    intros <-. apply (is_fresh (dom h)), elem_of_dom. eauto. }
  split_and!; [by apply Hframe | by apply Hframe | done |].
  by rewrite (resolve_args_run arg_names dd ad D A _ (Hframe _ _ Hd) (Hframe _ _ Ha)).
Qed.

End ResolveClaims.

Module ResolveClaimsExamples.
Import Utils ResolveSpec ResolveFacts ResolveClaims ResolveExamples.

Lemma resolve_args_fails_iff_witness :
  ((∃ reason, (resolve_args ["a"; "b"; "c"] 1%positive 2%positive abc_store).1
              = inl (TypeError reason)) ↔
     supplied_twice ["a"; "b"; "c"] abc_args
     ∨ unspecified ["a"; "b"; "c"] abc_defaults abc_args
     ∨ leftover ["a"; "b"; "c"] abc_args)
  ∧ (¬ (supplied_twice ["a"; "b"; "c"] abc_args
        ∨ unspecified ["a"; "b"; "c"] abc_defaults abc_args
        ∨ leftover ["a"; "b"; "c"] abc_args) →
     ∃ args, (resolve_args ["a"; "b"; "c"] 1%positive 2%positive abc_store).1
             = inr args).
Proof.
  apply (resolve_args_fails_iff ["a"; "b"; "c"] 1%positive 2%positive
           abc_defaults abc_args abc_store).
  - apply (bool_decide_unpack (NoDup _)). vm_compute. exact I.
  - vm_compute. reflexivity.
  - vm_compute. reflexivity.
Defined.

Lemma resolve_args_returns_bindings_witness :
  length [1%Z; 2%Z; 30%Z] = length ["a"; "b"; "c"]
  ∧ ∀ i name, ["a"; "b"; "c"] !! i = Some name →
      ∃ v, [1%Z; 2%Z; 30%Z] !! i = Some v
           ∧ binding abc_defaults abc_args i name = Some v.
Proof.
  apply (resolve_args_returns_bindings ["a"; "b"; "c"] 1%positive 2%positive
           abc_defaults abc_args abc_store).
  - apply (bool_decide_unpack (NoDup _)). vm_compute. exact I.
  - vm_compute. reflexivity.
  - vm_compute. reflexivity.
  - vm_compute. reflexivity.
Defined.

Lemma resolve_args_preserves_inputs_witness :
  (resolve_args ["a"; "b"; "c"] 1%positive 2%positive abc_store).2 !! 1%positive
    = Some abc_defaults
  ∧ (resolve_args ["a"; "b"; "c"] 1%positive 2%positive abc_store).2 !! 2%positive
    = Some abc_args
  ∧ (∀ l X, abc_store !! l = Some X →
       (resolve_args ["a"; "b"; "c"] 1%positive 2%positive abc_store).2 !! l = Some X)
  ∧ (resolve_args ["a"; "b"; "c"] 1%positive 2%positive
       (resolve_args ["a"; "b"; "c"] 1%positive 2%positive abc_store).2).1
    = (resolve_args ["a"; "b"; "c"] 1%positive 2%positive abc_store).1.
Proof.
  apply (resolve_args_preserves_inputs ["a"; "b"; "c"] 1%positive 2%positive
           abc_defaults abc_args abc_store).
  - vm_compute. reflexivity.
  - vm_compute. reflexivity.
Defined.

(** With a repeated name the second occurrence finds its keyword entry
    already consumed: the call raises although no name is supplied twice,
    every name has a keyword entry, and nothing is left over. *)
Lemma resolve_args_repeated_name_raises :
  (resolve_args ["a"; "a"] 1%positive 2%positive aa_store).1
    = inl (TypeError (NotSpecified "a"))
  ∧ ¬ (supplied_twice ["a"; "a"] aa_args
       ∨ unspecified ["a"; "a"] (∅ : gmap key Z) aa_args
       ∨ leftover ["a"; "a"] aa_args).
Proof.
  split; [vm_compute; reflexivity|].
  assert (∀ i name, ["a"; "a"] !! i = Some name → name = "a") as Hname.
  { intros [|[|[|i]]] name; simpl; congruence. }
  assert (∀ i : nat, aa_args !! KPos (Z.of_nat i) = None) as Hpos.
  { intros i. unfold aa_args. by rewrite lookup_singleton_ne. }
  assert (aa_args !! KName "a" = Some 1%Z) as Hkw.
  { unfold aa_args. by rewrite lookup_singleton_eq. }
  intros [(i & name & Hi & [Hp _]) | [(i & name & Hi & (_ & Hn & _)) | (k & Hk & Hfree)]].
  - rewrite Hpos in Hp. by destruct Hp.
  - rewrite (Hname _ _ Hi) in Hn. congruence.
  - apply (Hfree 0 "a"); [done|]. unfold consumed_key.
    rewrite bool_decide_eq_false_2 by (rewrite Hpos; by intros [? ?]).
    rewrite bool_decide_eq_true_2 by (rewrite Hkw; eauto).
    f_equal. unfold aa_args in Hk. destruct Hk as [v Hk].
    apply lookup_singleton_Some in Hk as [<- _]. done.
Qed.

(** With a repeated name and a default, the second occurrence receives the
    default although the keyword entry is present in [arg_dict]. *)
Lemma resolve_args_repeated_name_default :
  (resolve_args ["a"; "a"] 1%positive 2%positive aa_store_with_default).1
    = inr [1%Z; 2%Z]
  ∧ ["a"; "a"] !! 1 = Some "a"
  ∧ [1%Z; 2%Z] !! 1 = Some 2%Z
  ∧ binding aa_defaults aa_args 1 "a" = Some 1%Z.
Proof. split_and!; vm_compute; reflexivity. Qed.

End ResolveClaimsExamples.

Module StepperFacts.
Import Utils UtilsFacts UniqueNameFacts Stepper.

(** *** Scheduling a unit that is one instruction *)

Lemma members_none (I : list Instruction) (i : string) :
  i ∉ id <$> I → members I [i] = [].
Proof.
  unfold members. induction I as [|x I IH]; intros Hi; [done|].
  rewrite fmap_cons, not_elem_of_cons in Hi. destruct Hi as [Hx HI].
  rewrite filter_cons_False; [by apply IH|].
  intros Hin. apply list_elem_of_singleton in Hin. congruence.
Qed.

Lemma members_single (I : list Instruction) (ins : Instruction) :
  NoDup (id <$> I) → ins ∈ I → members I [id ins] = [ins].
Proof.
  unfold members. induction I as [|x I IH]; intros Hnd Hin.
  - by apply elem_of_nil in Hin.
  - rewrite fmap_cons in Hnd. apply NoDup_cons in Hnd as [Hx Hnd].
    apply elem_of_cons in Hin as [<- | Hin].
    + rewrite filter_cons_True by apply list_elem_of_singleton, eq_refl.
      f_equal. by apply members_none.
    + rewrite filter_cons_False; [by apply IH|].
      intros Heq. apply list_elem_of_singleton in Heq.
      apply Hx. rewrite Heq. by apply list_elem_of_fmap_2.
Qed.

Lemma find_instruction_elem (I : list Instruction) (ins : Instruction) :
  NoDup (id <$> I) → ins ∈ I → find_instruction I (id ins) = Some ins.
Proof.
  unfold find_instruction. induction I as [|x I IH]; intros Hnd Hin.
  - by apply elem_of_nil in Hin.
  - rewrite fmap_cons in Hnd. apply NoDup_cons in Hnd as [Hx Hnd]. simpl.
    apply elem_of_cons in Hin as [<- | Hin].
    + by rewrite decide_True.
    + rewrite decide_False.
      * specialize (IH Hnd Hin).
        destruct (list_find (λ ins0, id ins0 = id ins) I) as [[n y]|]; simpl; [done | done].
      * intros Heq. apply Hx. rewrite Heq. by apply list_elem_of_fmap_2.
Qed.

Lemma closure_nil fuel next : closure fuel next [] = [].
Proof. induction fuel as [|fuel IH]; [done | apply IH]. Qed.

Lemma closure_single fuel next (r : string) :
  next r = [] → closure fuel next [r] = [r].
Proof.
  intros Hr. induction fuel as [|fuel IH]; [done|]. simpl. by rewrite Hr.
Qed.

Lemma schedule_nil (I : list Instruction) : schedule I [] = [].
Proof.
  unfold schedule, reachable. rewrite closure_nil.
  assert (members I [] = []) as ->; [|done].
  unfold members. induction I as [|x I IH]; [done|].
  rewrite filter_cons_False; [done | apply not_elem_of_nil].
Qed.

Lemma schedule_single (I : list Instruction) (ins : Instruction) :
  NoDup (id <$> I) → ins ∈ I → depends_on ins = [] →
  schedule I [id ins] = [ins].
Proof.
  intros Hnd Hin Hdeps. unfold schedule, reachable.
  rewrite closure_single by (by rewrite find_instruction_elem).
  rewrite members_single by done. simpl.
  destruct (decide _) as [_ | Hn]; [done|].
  destruct Hn. rewrite Hdeps. constructor.
Qed.

Lemma region_single (I : list Instruction) (ins : Instruction) :
  NoDup (id <$> I) → ins ∈ I → referenced_ids ins = [] →
  region I [id ins] = [id ins].
Proof.
  intros Hnd Hin Href. unfold region.
  apply closure_single. by rewrite find_instruction_elem.
Qed.

(** *** Identifier assignment never fails and never reuses an identifier *)

Section generator_facts.
Variables (is_legal : string → bool) (sanitize : string → string).

Lemma fresh_identifier_fresh (used : gset string) (name : string) :
  ∃ i, fresh_identifier is_legal sanitize used name = Some i ∧ i ∉ used.
Proof.
  unfold fresh_identifier.
  destruct (is_legal name && bool_decide (name ∉ used)) eqn:Hkeep.
  - apply andb_true_iff in Hkeep as [_ Hfree]. apply bool_decide_eq_true in Hfree. eauto.
  - destruct (get_unique_name_fresh (sanitize name) [used]) as (i & Hi & Hfree).
    exists i. split; [done|]. intros Hin. apply Hfree. simpl. set_solver.
Qed.

Lemma assign_identifiers_is_Some (names : list string) (m : gmap string string)
    (used : gset string) :
  is_Some (assign_identifiers is_legal sanitize names m used).
Proof.
  revert m used. induction names as [|name rest IH]; intros m used; simpl; [eauto|].
  destruct (m !! name); [apply IH|].
  destruct (fresh_identifier_fresh used name) as (i & -> & _). apply IH.
Qed.

Lemma generate_state_is_Some (I : list Instruction) (g : gmap string string)
    (st : ProgramState) :
  ∃ sc, generate_state is_legal sanitize I g st = Some sc
        ∧ successor sc = next_state st.
Proof.
  unfold generate_state.
  destruct (assign_identifiers_is_Some
              (filter (λ name, is_state_variable name = false)
                 (concat (names_of <$> members I (region I (root_ids st))))) ∅ ∅)
    as [l ->].
  simpl. eauto.
Qed.

Lemma generate_state_empty (I : list Instruction) (g : gmap string string)
    (next : string) :
  generate_state is_legal sanitize I g {| root_ids := []; next_state := next |}
  = Some {| body := []; successor := next |}.
Proof.
  unfold generate_state, region. simpl root_ids. rewrite closure_nil.
  assert (members I [] = []) as ->.
  { unfold members. induction I as [|x I IH]; [done|].
    rewrite filter_cons_False; [done | apply not_elem_of_nil]. }
  simpl. by rewrite schedule_nil.
Qed.

Lemma generate_state_single (I : list Instruction) (g : gmap string string)
    (ins : Instruction) (next : string) :
  NoDup (id <$> I) → ins ∈ I →
  referenced_ids ins = [] → names_of ins = [] →
  generate_state is_legal sanitize I g
    {| root_ids := [id ins]; next_state := next |}
  = Some {| body := lower_unit (S (length I)) I
                      {| global_idents := g; local_idents := ∅ |} [id ins];
            successor := next |}.
Proof.
  intros Hnd Hin Href Hnames. unfold generate_state. simpl root_ids.
  rewrite region_single, members_single by done.
  simpl. by rewrite Hnames.
Qed.

(** The class generated for a two-state program whose step is one
    instruction without dependencies and without names. *)
Lemma get_class_single_step (I : list Instruction) (init : list string)
    (ins : Instruction) (P : Program) :
  NoDup (id <$> I) → ins ∈ I →
  referenced_ids ins = [] → names_of ins = [] →
  create_with_init_and_step init I [id ins] = inr P →
  ∃ g sc0,
    get_class is_legal sanitize P =
      Some {| globals := g;
              state_code :=
                [("initialization", sc0);
                 ("primary",
                  {| body := lower_unit (S (length I)) I
                               {| global_idents := g; local_idents := ∅ |} [id ins];
                     successor := "primary" |})];
              start := "initialization" |}
    ∧ successor sc0 = "primary"
    ∧ (init = [] → body sc0 = []).
Proof.
  intros Hnd Hin Href Hnames Hcreate. unfold create_with_init_and_step in Hcreate.
  destruct (list_find _ _) as [[n i]|]; [done|]. injection Hcreate as <-.
  unfold get_class. simpl instructions. simpl states. simpl initial_state.
  destruct (assign_identifiers_is_Some
              (filter (λ name, is_state_variable name = true)
                 (concat (names_of <$> I))) ∅ ∅) as [g ->].
  destruct (generate_state_is_Some I g
              {| root_ids := init; next_state := "primary" |}) as (sc0 & Hsc0 & Hnext).
  exists g, sc0. simpl. rewrite Hsc0. simpl.
  rewrite generate_state_single by done. simpl.
  split_and!; [done | done |].
  intros ->. rewrite generate_state_empty in Hsc0. by injection Hsc0 as <-.
Qed.

(** The identifiers of a namespace are assigned by [fresh_identifier], one
    name after the other. *)
Lemma assign_identifiers_two_fresh (n1 n2 : string) :
  n1 ≠ n2 →
  ∃ i1 i2,
    fresh_identifier is_legal sanitize ∅ n1 = Some i1
    ∧ fresh_identifier is_legal sanitize ({[i1]} ∪ ∅) n2 = Some i2
    ∧ assign_identifiers is_legal sanitize [n1; n2; n1; n2] ∅ ∅
      = Some (<[n2 := i2]> (<[n1 := i1]> ∅))
    ∧ i1 ≠ i2.
Proof.
  intros Hne.
  destruct (fresh_identifier_fresh ∅ n1) as (i1 & H1 & _).
  destruct (fresh_identifier_fresh ({[i1]} ∪ ∅) n2) as (i2 & H2 & Hfresh).
  exists i1, i2. split_and!; [done | done | | set_solver].
  simpl. rewrite lookup_empty, H1.
  rewrite lookup_insert_ne, lookup_empty by done. rewrite H2.
  rewrite lookup_insert_ne, lookup_insert_eq by done.
  by rewrite lookup_insert_eq.
Qed.



End generator_facts.

(** *** Lowering and running a state that is one instruction *)

Lemma lower_unit_abort fuel (I : list Instruction) (nm : name_maps)
    (ins : Instruction) :
  NoDup (id <$> I) → ins ∈ I → depends_on ins = [] → insn ins = AbortStep →
  lower_unit (S fuel) I nm [id ins] = [Fail].
Proof.
  intros Hnd Hin Hdeps Hinsn. simpl.
  rewrite schedule_single by done. simpl. unfold lower_instruction. by rewrite Hinsn.
Qed.

Lemma lower_unit_raise fuel (I : list Instruction) (nm : name_maps)
    (ins : Instruction) kind message :
  NoDup (id <$> I) → ins ∈ I → depends_on ins = [] →
  insn ins = RaiseError kind message →
  lower_unit (S fuel) I nm [id ins] = [Raise kind message].
Proof.
  intros Hnd Hin Hdeps Hinsn. simpl.
  rewrite schedule_single by done. simpl. unfold lower_instruction. by rewrite Hinsn.
Qed.


Lemma run_single_step_at (m : StepperState) (sc : StateCode) :
  find_state (state_code (class m)) (current_state m) = Some sc →
  run_single_step m =
    match exec_block (body sc) {| persistent := storage m; locals := ∅ |} with
    | (evs, Continue σ) =>
        ((Event <$> evs) ++ [Event (StateCompleted (current_state m))],
         {| class := class m;
            current_state := successor sc;
            storage := persistent σ |})
    | (evs, Stop s σ) =>
        ((Event <$> evs) ++ [Failure s],
         {| class := class m;
            current_state := current_state m;
            storage := persistent σ |})
    | (evs, Stuck) => ((Event <$> evs) ++ [Unspecified], m)
    end.
Proof. intros Hsc. unfold run_single_step. by rewrite Hsc. Qed.

Lemma find_state_initialization (sc0 sc1 : StateCode) :
  find_state [("initialization", sc0); ("primary", sc1)] "initialization" = Some sc0.
Proof. reflexivity. Qed.

Lemma find_state_primary (sc0 sc1 : StateCode) :
  find_state [("initialization", sc0); ("primary", sc1)] "primary" = Some sc1.
Proof. reflexivity. Qed.

(** *** What the generated code reads after [set_up] *)






End StepperFacts.

Module StepperClaims.
Import Utils Stepper StepperFacts.

(** C5, as amended.  For a program built by [create_with_init_and_step]
    whose ["primary"] state is rooted at a single [AbortStep] instruction,
    every call to [run_single_step] made while the current state is
    ["primary"] yields [StepFailed] and no [StateCompleted], and leaves the
    stepper where it was, so the same state is retried by the next call. *)
Theorem abort_step_fails_in_primary :
  ∀ (is_legal : string → bool) (sanitize : string → string)
    (I : list Instruction) (init : list string) (ins : Instruction) (P : Program),
    NoDup (id <$> I) → ins ∈ I →
    depends_on ins = [] → insn ins = AbortStep →
    create_with_init_and_step init I [id ins] = inr P →
    ∃ cls, get_class is_legal sanitize P = Some cls
      ∧ ∀ m, class m = cls → current_state m = "primary" →
          ∀ n, run_single_step (after_steps n m) = ([Failure StepFailed], m)
               ∧ current_state (after_steps n m) = "primary".
Proof.
  intros is_legal sanitize I init ins P Hnd Hin Hdeps Hinsn Hcreate.
  destruct (get_class_single_step is_legal sanitize I init ins P)
    as (g & sc0 & Hcls & _ & _); try done.
  { unfold referenced_ids. by rewrite Hdeps, Hinsn. }
  { unfold names_of. by rewrite Hinsn. }
  eexists. split; [exact Hcls|]. intros m Hclass Hcur.
  assert (run_single_step m = ([Failure StepFailed], m)) as Hstep.
  { erewrite run_single_step_at;
      [| rewrite Hclass, Hcur; cbn [state_code]; apply find_state_primary].
    cbn [body]. rewrite lower_unit_abort by done. simpl. by destruct m. }
  assert (∀ n, after_steps n m = m) as Hsame.
  { intros n. induction n as [|n IH]; [done|]. simpl. by rewrite Hstep. }
  intros n. by rewrite Hsame.
Qed.

(** C7.  For a program whose step root is a single [RaiseError] with kind
    [K] and message [M], executing the step surfaces exactly [Raised K M],
    and the sequence of a run ends there: nothing follows it, however many
    steps were asked for. *)
Theorem raise_error_ends_run :
  ∀ (is_legal : string → bool) (sanitize : string → string)
    (I : list Instruction) (init : list string) (ins : Instruction)
    (kind message : string) (P : Program),
    NoDup (id <$> I) → ins ∈ I →
    depends_on ins = [] → insn ins = RaiseError kind message →
    create_with_init_and_step init I [id ins] = inr P →
    ∃ cls, get_class is_legal sanitize P = Some cls
      ∧ (∀ m, class m = cls → current_state m = "primary" →
           (run_single_step m).1 = [Failure (Raised kind message)]
           ∧ ∀ n, run (S n) m = [Failure (Raised kind message)])
      ∧ (init = [] → ∀ t dt context n,
           run (S (S n)) (set_up cls t dt context)
           = [Event (StateCompleted "initialization");
              Failure (Raised kind message)]).
Proof.
  intros is_legal sanitize I init ins kind message P Hnd Hin Hdeps Hinsn Hcreate.
  destruct (get_class_single_step is_legal sanitize I init ins P)
    as (g & sc0 & Hcls & Hnext & Hinit); try done.
  { unfold referenced_ids. by rewrite Hdeps, Hinsn. }
  { unfold names_of. by rewrite Hinsn. }
  eexists. split; [exact Hcls|].
  assert (∀ m, class m = {| globals := g;
              state_code :=
                [("initialization", sc0);
                 ("primary",
                  {| body := lower_unit (S (length I)) I
                               {| global_idents := g; local_idents := ∅ |} [id ins];
                     successor := "primary" |})];
              start := "initialization" |} →
            current_state m = "primary" →
            run_single_step m = ([Failure (Raised kind message)], m)) as Hstep.
  { intros m Hclass Hcur.
    erewrite run_single_step_at;
      [| rewrite Hclass, Hcur; cbn [state_code]; apply find_state_primary].
    cbn [body]. rewrite (lower_unit_raise _ _ _ _ kind message) by done.
    simpl. by destruct m. }
  split.
  - intros m Hclass Hcur. rewrite (Hstep m Hclass Hcur). split; [done|].
    intros n. simpl. by rewrite (Hstep m Hclass Hcur).
  - intros -> t dt context n. specialize (Hinit eq_refl).
    set (m0 := set_up _ t dt context).
    assert (run_single_step m0 =
              ([Event (StateCompleted "initialization")],
               {| class := class m0; current_state := "primary";
                  storage := storage m0 |})) as Hfirst.
    { erewrite run_single_step_at; [| apply find_state_initialization].
      rewrite Hinit, Hnext. done. }
    change (run (S (S n)) m0) with
      (let '(items, m') := run_single_step m0 in
       if existsb is_fatal items then items else items ++ run (S n) m').
    rewrite Hfirst. simpl existsb. cbv iota.
    change (run (S n) ?m) with
      (let '(items, m') := run_single_step m in
       if existsb is_fatal items then items else items ++ run n m').
    by rewrite Hstep.
Qed.


(** C9.  The locals [y^] and [y*], assigned in the same state, are mapped
    by the identifier assignment of that state to two distinct generated
    identifiers, whatever the target's legality test and sanitizer are:
    [i1] is the identifier generated for [y^] when none is in use, [i2] the
    one generated for [y*] when [i1] is in use, the assignment maps the two
    names to them, and the generated code stores and reads the locals
    under them.  Each keeps its own value: assigning [y^ := a] and
    [y* := b] and emitting [y^ + y*] yields [a + b], which is 1 for the
    values 1 and 0 of the test. *)
Theorem local_names_are_distinct :
  ∀ (is_legal : string → bool) (sanitize : string → string) (a b : Z),
  ∃ P cls sc0 m i1 i2,
    create_with_init_and_step [] (Scenarios.local_names_instructions a b) ["return"]
    = inr P
    ∧ get_class is_legal sanitize P = Some cls
    ∧ assign_identifiers is_legal sanitize
        (filter (λ name, is_state_variable name = false)
           (concat (names_of <$>
              members (instructions P) (region (instructions P) ["return"]))))
        ∅ ∅ = Some m
    ∧ m !! "y^" = Some i1
    ∧ m !! "y*" = Some i2
    ∧ fresh_identifier is_legal sanitize ∅ "y^" = Some i1
    ∧ fresh_identifier is_legal sanitize ({[i1]} ∪ ∅) "y*" = Some i2
    ∧ i1 ≠ i2
    ∧ state_code cls =
        [("initialization", sc0);
         ("primary",
          {| body := [Store (Local i1) (Const a);
                      Store (Local i2) (Const b);
                      Yield (Const 0) "final"
                        (Sum (Var (Local i1)) (Var (Local i2))) "y"];
             successor := "primary" |})]
    ∧ (∀ t dt context,
         run 2 (set_up cls t dt context)
         = [Event (StateCompleted "initialization");
            Event (Emitted "y" "final" 0 (a + b));
            Event (StateCompleted "primary")])
    ∧ (a = 1%Z → b = 0%Z → ∀ t dt context,
         run 2 (set_up cls t dt context)
         = [Event (StateCompleted "initialization");
            Event (Emitted "y" "final" 0 1);
            Event (StateCompleted "primary")]).
Proof.
  intros is_legal sanitize a b.
  set (I := Scenarios.local_names_instructions a b).
  destruct (assign_identifiers_two_fresh is_legal sanitize "y^" "y*")
    as (i1 & i2 & Hfresh1 & Hfresh2 & Hassign & Hne); [done|].
  set (m := <["y*" := i2]> (<["y^" := i1]> (∅ : gmap string string))).
  assert (m !! "y^" = Some i1) as Hm1.
  { unfold m. by rewrite lookup_insert_ne, lookup_insert_eq. }
  assert (m !! "y*" = Some i2) as Hm2.
  { unfold m. by rewrite lookup_insert_eq. }
  set (nm := {| global_idents := ∅; local_idents := m |}).
  assert (ident_of nm "y^" = Local i1) as Hy1.
  { unfold ident_of. cbn [local_idents nm]. by rewrite Hm1. }
  assert (ident_of nm "y*" = Local i2) as Hy2.
  { unfold ident_of. cbn [local_idents nm]. by rewrite Hm2. }
  assert (filter (λ name, is_state_variable name = false)
            (concat (names_of <$> members I (region I ["return"])))
          = ["y^"; "y*"; "y^"; "y*"]) as Hnames by reflexivity.
  assert (lower_unit 4 I nm ["return"] =
            [Store (Local i1) (Const a); Store (Local i2) (Const b);
             Yield (Const 0) "final" (Sum (Var (Local i1)) (Var (Local i2))) "y"])
    as Hbody.
  { change (lower_unit 4 I nm ["return"])
      with (lower_instruction (lower_unit 3 I nm) nm <$> schedule I ["return"]).
    assert (schedule I ["return"] = I) as -> by reflexivity.
    unfold I, Scenarios.local_names_instructions, lower_instruction. simpl.
    by rewrite Hy1, Hy2. }
  assert (∀ t dt context,
            run 2 (set_up
                     {| globals := ∅;
                        state_code :=
                          [("initialization", {| body := []; successor := "primary" |});
                           ("primary",
                            {| body := lower_unit 4 I nm ["return"];
                               successor := "primary" |})];
                        start := "initialization" |} t dt context)
            = [Event (StateCompleted "initialization");
               Event (Emitted "y" "final" 0 (a + b));
               Event (StateCompleted "primary")]) as Hrun.
  { intros t dt context. rewrite Hbody.
    set (m0 := set_up _ t dt context).
    change (run 2 m0) with
      (let '(items, m') := run_single_step m0 in
       if existsb is_fatal items then items else items ++ run 1 m').
    erewrite (run_single_step_at m0); [| apply find_state_initialization].
    simpl.
    erewrite run_single_step_at; [| apply find_state_primary].
    simpl. rewrite lookup_insert_ne, lookup_insert_eq by done.
    by rewrite lookup_insert_eq. }
  eexists {| instructions := I;
             states := [("initialization",
                         {| root_ids := []; next_state := "primary" |});
                        ("primary",
                         {| root_ids := ["return"]; next_state := "primary" |})];
             initial_state := "initialization" |}.
  exists {| globals := ∅;
            state_code :=
              [("initialization", {| body := []; successor := "primary" |});
               ("primary",
                {| body := lower_unit 4 I nm ["return"];
                   successor := "primary" |})];
            start := "initialization" |}.
  exists {| body := []; successor := "primary" |}, m, i1, i2.
  cbn [instructions].
  split_and!.
  - reflexivity.
  - unfold get_class. cbn [instructions states initial_state].
    assert (filter (λ name, is_state_variable name = true)
              (concat (names_of <$> I)) = []) as -> by reflexivity.
    assert (generate_state is_legal sanitize I ∅
              {| root_ids := ["return"]; next_state := "primary" |}
            = Some {| body := lower_unit 4 I nm ["return"];
                      successor := "primary" |}) as Hgen.
    { unfold generate_state. cbn [root_ids next_state].
      rewrite Hnames, Hassign. reflexivity. }
    cbn [assign_identifiers]. cbn [mbind option_bind]. cbn [mapM fst snd].
    rewrite generate_state_empty, Hgen. reflexivity.
  - by rewrite Hnames.
  - done.
  - done.
  - done.
  - done.
  - done.
  - cbn [state_code]. by rewrite <- Hbody.
  - exact Hrun.
  - intros -> ->. exact Hrun.
Qed.

End StepperClaims.

Module StepperClaimsExamples.
Import Utils Stepper StepperFacts StepperClaims Scenarios.

Lemma abort_step_fails_in_primary_witness :
  ∃ cls, get_class any_name_is_legal no_sanitizing
           (two_state_program fail_step_instructions ["fail"]) = Some cls
    ∧ ∀ m, class m = cls → current_state m = "primary" →
        ∀ n, run_single_step (after_steps n m) = ([Failure StepFailed], m)
             ∧ current_state (after_steps n m) = "primary".
Proof.
  apply (abort_step_fails_in_primary any_name_is_legal no_sanitizing
           fail_step_instructions []
           {| id := "fail"; depends_on := []; insn := AbortStep |}).
  - apply (bool_decide_unpack (NoDup _)). vm_compute. exact I.
  - apply list_elem_of_here.
  - reflexivity.
  - reflexivity.
  - vm_compute. reflexivity.
Defined.

(** In the program of [test_basic_fail_step_codegen] the first call to
    [run_single_step] after [set_up] runs the initialization state: it
    yields [StateCompleted "initialization"], not [StepFailed], and the
    current state advances to ["primary"]. *)
Lemma abort_program_first_call_completes :
  ∃ cls,
    create_with_init_and_step [] fail_step_instructions ["fail"]
    = inr (two_state_program fail_step_instructions ["fail"])
    ∧ get_class any_name_is_legal no_sanitizing
        (two_state_program fail_step_instructions ["fail"]) = Some cls
    ∧ current_state (set_up cls 0 0 []) = "initialization"
    ∧ (run_single_step (set_up cls 0 0 [])).1
      = [Event (StateCompleted "initialization")]
    ∧ (run_single_step (set_up cls 0 0 [])).1 ≠ [Failure StepFailed]
    ∧ current_state (run_single_step (set_up cls 0 0 [])).2 = "primary".
Proof.
  exists {| globals := ∅;
            state_code := [("initialization", {| body := []; successor := "primary" |});
                           ("primary", {| body := [Fail]; successor := "primary" |})];
            start := "initialization" |}.
  split_and!; try (vm_compute; reflexivity).
  vm_compute. discriminate.
Qed.

Lemma raise_error_ends_run_witness :
  ∃ cls, get_class any_name_is_legal no_sanitizing
           (two_state_program raise_instructions ["raise"]) = Some cls
    ∧ (∀ m, class m = cls → current_state m = "primary" →
         (run_single_step m).1 = [Failure (Raised "TimeStepUnderflow" "underflow")]
         ∧ ∀ n, run (S n) m = [Failure (Raised "TimeStepUnderflow" "underflow")])
    ∧ (@nil string = [] → ∀ t dt context n,
         run (S (S n)) (set_up cls t dt context)
         = [Event (StateCompleted "initialization");
            Failure (Raised "TimeStepUnderflow" "underflow")]).
Proof.
  apply (raise_error_ends_run any_name_is_legal no_sanitizing
           raise_instructions []
           {| id := "raise"; depends_on := [];
              insn := RaiseError "TimeStepUnderflow" "underflow" |}).
  - apply (bool_decide_unpack (NoDup _)). vm_compute. exact I.
  - apply list_elem_of_here.
  - reflexivity.
  - reflexivity.
  - vm_compute. reflexivity.
Defined.



End StepperClaimsExamples.

(** * Further properties of the utilities *)

Module UniqueNameExtraFacts.
Import Utils UtilsFacts UniqueNameFacts.

Lemma is_in_name_sets_merge name_sets var :
  is_in_name_sets [⋃ name_sets] var = is_in_name_sets name_sets var.
Proof.
  apply eq_true_iff_eq.
  rewrite !is_in_name_sets_union. simpl. by rewrite union_empty_r_L.
Qed.

(** What a result of the loop tells: it stopped at a free suffix, within
    the fuel, after taken ones only. *)
Lemma probe_inv fuel prefix name_sets suffix r :
  probe fuel prefix name_sets suffix = Some r →
  ∃ n, r = prefix +:+ str n ∧ suffix ≤ n ∧ n - suffix < fuel
       ∧ (prefix +:+ str n ∉ ⋃ name_sets)
       ∧ ∀ m, suffix ≤ m → m < n → prefix +:+ str m ∈ ⋃ name_sets.
Proof.
  revert suffix. induction fuel as [|fuel IH]; intros suffix; simpl; [done|].
  destruct (is_in_name_sets _ _) eqn:Hin.
  - intros Hr. destruct (IH _ Hr) as (n & -> & Hle & Hfuel & Hfree & Hbelow).
    exists n. split_and!; [done | lia | lia | done |].
    intros m Hm1 Hm2. destruct (decide (m = suffix)) as [-> | Hne].
    + by apply is_in_name_sets_union.
    + apply Hbelow; lia.
  - intros [= <-]. exists suffix. split_and!; [done | lia | lia | | intros; lia].
    by apply not_in_name_sets.
Qed.

(** A returned name is in none of the name sets, whatever the fuel was. *)
Lemma get_unique_name_sound fuel prefix name_sets r :
  get_unique_name fuel prefix name_sets = Some r → r ∉ ⋃ name_sets.
Proof.
  unfold get_unique_name.
  destruct (is_in_name_sets name_sets prefix) eqn:Hin; cbn [negb].
  - intros Hr. by destruct (probe_inv _ _ _ _ _ Hr) as (n & -> & _ & _ & Hfree & _).
  - intros [= <-]. by apply not_in_name_sets.
Qed.

End UniqueNameExtraFacts.

Module UniqueNameExtras.
Import Utils UtilsFacts UniqueNameFacts UniqueNameExtraFacts.

(** X1. [get_unique_name] depends on the name sets only through the names
    they hold together: passing the sets one by one or merged into a
    single set gives the same result, for the same number of loop
    iterations allowed. *)
Theorem get_unique_name_merge :
  ∀ (fuel : nat) (prefix : string) (name_sets : list (gset string)),
    get_unique_name fuel prefix [⋃ name_sets]
    = get_unique_name fuel prefix name_sets.
Proof.
  intros fuel prefix name_sets. unfold get_unique_name.
  rewrite is_in_name_sets_merge. destruct (negb _); [done|].
  generalize 0. induction fuel as [|fuel IH]; intros suffix; cbn [probe]; [done|].
  rewrite is_in_name_sets_merge, IH. done.
Qed.

(** X2. Adding names to the name sets does not change the result as long
    as the name returned before stays unused. *)
Theorem get_unique_name_stable :
  ∀ (fuel : nat) (prefix : string) (name_sets name_sets' : list (gset string))
    (r : string),
    get_unique_name fuel prefix name_sets = Some r →
    ⋃ name_sets ⊆ ⋃ name_sets' →
    r ∉ ⋃ name_sets' →
    get_unique_name fuel prefix name_sets' = Some r.
Proof.
  intros fuel prefix name_sets name_sets' r Hr Hsub Hfree. unfold get_unique_name in *.
  destruct (is_in_name_sets name_sets prefix) eqn:Hin; cbn [negb] in Hr.
  - apply is_in_name_sets_union in Hin.
    assert (is_in_name_sets name_sets' prefix = true) as ->.
    { apply is_in_name_sets_union. by apply Hsub. }
    cbn [negb].
    destruct (probe_inv _ _ _ _ _ Hr) as (n & -> & _ & Hfuel & _ & Hbelow).
    apply probe_reaches; [lia | done | | done].
    intros m Hm1 Hm2. apply Hsub, Hbelow; lia.
  - injection Hr as <-.
    apply not_in_name_sets in Hfree. by rewrite Hfree.
Qed.

(** X3. Asking again after the returned name has been put into a name set
    gives a different name, which is again in none of the original sets
    and begins with the prefix. *)
Theorem get_unique_name_again :
  ∀ (fuel fuel' : nat) (prefix : string) (name_sets : list (gset string))
    (r1 r2 : string),
    get_unique_name fuel prefix name_sets = Some r1 →
    get_unique_name fuel' prefix ({[r1]} :: name_sets) = Some r2 →
    r1 ≠ r2 ∧ (r2 ∉ ⋃ name_sets) ∧ startswith r2 prefix = true
    ∧ ∃ n, r2 = prefix +:+ str n.
Proof.
  intros fuel fuel' prefix name_sets r1 r2 H1 H2.
  pose proof (get_unique_name_sound _ _ _ _ H1) as Hfree1.
  pose proof (get_unique_name_sound _ _ _ _ H2) as Hfree2.
  simpl in Hfree2.
  assert (r1 ≠ r2) as Hne by set_solver.
  split_and!; [done | set_solver | |].
  - unfold get_unique_name in H2.
    destruct (negb _); [| destruct (probe_inv _ _ _ _ _ H2) as (n & -> & _)].
    + injection H2 as <-. rewrite <- (append_empty_r prefix) at 1.
      apply startswith_append.
    + apply startswith_append.
  - unfold get_unique_name in H1, H2.
    destruct (is_in_name_sets ({[r1]} :: name_sets) prefix) eqn:Hin2; cbn [negb] in H2.
    + destruct (probe_inv _ _ _ _ _ H2) as (n & -> & _). eauto.
    + injection H2 as <-. exfalso.
      destruct (is_in_name_sets name_sets prefix) eqn:Hin1; cbn [negb] in H1.
      * apply is_in_name_sets_union in Hin1.
        apply not_in_name_sets in Hin2. simpl in Hin2. set_solver.
      * by injection H1 as <-.
Qed.

End UniqueNameExtras.

Module StateVariableExtraFacts.
Import Utils.

Lemma startswith_trans var p q :
  startswith var p = true → startswith p q = true → startswith var q = true.
Proof.
  rewrite !startswith_spec. intros [r1 ->] [r2 ->].
  exists (r2 +:+ r1). clear. induction q as [|c q IH]; [done|].
  change (String c q +:+ r2) with (String c (q +:+ r2)).
  change (String c (q +:+ r2) +:+ r1) with (String c ((q +:+ r2) +:+ r1)).
  change (String c q +:+ r2 +:+ r1) with (String c (q +:+ r2 +:+ r1)).
  by rewrite IH.
Qed.

Lemma startswith_extend var p s :
  startswith var p = true → startswith (var +:+ s) p = true.
Proof.
  intros H. apply (startswith_trans _ var); [apply startswith_append | done].
Qed.

End StateVariableExtraFacts.

Module StateVariableExtras.
Import Utils StateVariableExtraFacts.

(** X4. The time and step-size names are matched exactly, not as
    prefixes: ["<t>"] or ["<dt>"] followed by anything is not a state
    variable. *)
Theorem is_state_variable_exact_singletons :
  ∀ rest : string,
    (is_state_variable ("<t>" +:+ rest) = true ↔ rest = "")
    ∧ (is_state_variable ("<dt>" +:+ rest) = true ↔ rest = "").
Proof.
  intros rest. destruct rest as [|c rest].
  - split; split; reflexivity.
  - split; (split; [|discriminate]); intros H; exfalso; revert H;
      cbv [String.append]; unfold is_state_variable; simpl; discriminate.
Qed.

(** X5. The prefix namespaces are closed under extension: a state
    variable other than ["<t>"] and ["<dt>"] remains one whatever is
    appended to its name. *)
Theorem is_state_variable_extend :
  ∀ var rest : string,
    is_state_variable var = true →
    var ≠ "<t>" → var ≠ "<dt>" →
    is_state_variable (var +:+ rest) = true.
Proof.
  intros var rest Hvar Ht Hdt. unfold is_state_variable in *.
  apply String.eqb_neq in Ht, Hdt. rewrite Ht, Hdt in Hvar. cbn [orb] in Hvar.
  destruct (String.eqb (var +:+ rest) "<t>" || String.eqb (var +:+ rest) "<dt>");
    [done|].
  destruct (startswith var "<state>" || startswith var "<p>"
            || startswith var "<ret_time_id>" || startswith var "<ret_time>"
            || startswith var "<ret_state>") eqn:Hpre; [|done].
  repeat (apply orb_true_iff in Hpre as [Hpre | Hpre]);
    rewrite (startswith_extend _ _ rest Hpre); by rewrite ?orb_true_r.
Qed.

End StateVariableExtras.

Module ResolveExtraFacts.
Import Utils ResolveSpec ResolveFacts.

Section more_on_values.
Context {V : Type}.
Implicit Types (A D : gmap key V) (arg_names : list string).

Lemma covered_cons i name rest (k : key) :
  covered i (name :: rest) k ↔
  k = KPos (Z.of_nat i) ∨ k = KName name ∨ covered (S i) rest k.
Proof.
  unfold covered. split.
  - intros [(j & Hj & ->) | (name' & Hin & ->)].
    + destruct j as [|j]; [left; by rewrite Nat.add_0_r|].
      right; right; left. exists j. simpl in Hj.
      split; [lia | do 2 f_equal; lia].
    + apply elem_of_cons in Hin as [-> | Hin]; [by right; left|].
      right; right; right. eauto.
  - intros [-> | [-> | [(j & Hj & ->) | (name' & Hin & ->)]]].
    + left. exists 0. simpl. split; [lia | by rewrite Nat.add_0_r].
    + right. exists name. split; [left | done].
    + left. exists (S j). simpl. split; [lia | do 2 f_equal; lia].
    + right. exists name'. split; [by right | done].
Qed.

(** The loop touches no key but the positions and names it goes through,
    and only ever removes entries. *)
Lemma loop_on_other_keys D i arg_names A args r A' :
  loop_on D i arg_names A args = (r, A') →
  (∀ k, ¬ covered i arg_names k → A' !! k = A !! k)
  ∧ (∀ k, is_Some (A' !! k) → is_Some (A !! k)).
Proof.
  revert i A args. induction arg_names as [|name rest IH]; intros i A args; simpl.
  - by intros [= _ <-].
  - assert (∀ A1 v,
      (∀ k, k ≠ KPos (Z.of_nat i) → k ≠ KName name → A1 !! k = A !! k) →
      (∀ k, is_Some (A1 !! k) → is_Some (A !! k)) →
      loop_on D (S i) rest A1 (args ++ [v]) = (r, A') →
      (∀ k, ¬ covered i (name :: rest) k → A' !! k = A !! k)
      ∧ (∀ k, is_Some (A' !! k) → is_Some (A !! k))) as Hstep.
    { intros A1 v Hother Hsub Hrun. destruct (IH _ _ _ Hrun) as [Hnot Hsub'].
      split; [|by eauto].
      intros k Hk. rewrite covered_cons in Hk.
      rewrite Hnot by tauto. apply Hother; tauto. }
    assert (∀ k0 k, is_Some (delete k0 A !! k) → is_Some (A !! k)) as Hdel.
    { intros k0 k [v Hv]. apply lookup_delete_Some in Hv as [_ Hv]. eauto. }
    destruct (A !! KPos (Z.of_nat i)) as [v|] eqn:Hpos.
    + case_bool_decide as Hkw.
      * intros [= _ <-]. split; [|by apply Hdel].
        intros k Hk. rewrite covered_cons in Hk.
        rewrite lookup_delete_ne; [done | intros <-; tauto].
      * apply Hstep; [|by apply Hdel].
        intros k ? _. by rewrite lookup_delete_ne.
    + destruct (A !! KName name) as [v|] eqn:Hkw.
      * apply Hstep; [|by apply Hdel].
        intros k _ ?. by rewrite lookup_delete_ne.
      * destruct (D !! KName name) as [v|] eqn:Hdef; [by apply Hstep|].
        by intros [= _ <-].
Qed.

Lemma loop_on_length D i arg_names A args res A' :
  loop_on D i arg_names A args = (inr res, A') →
  length res = length args + length arg_names.
Proof.
  revert i A args. induction arg_names as [|name rest IH]; intros i A args; simpl.
  - intros [= <- _]. lia.
  - assert (∀ A1 v, loop_on D (S i) rest A1 (args ++ [v]) = (inr res, A') →
              length res = length args + S (length rest)) as Hstep.
    { intros A1 v Hrun. rewrite (IH _ _ _ Hrun), length_app. simpl. lia. }
    destruct (A !! KPos (Z.of_nat i)) as [v|].
    + case_bool_decide; [done | apply Hstep].
    + destruct (A !! KName name) as [v|]; [apply Hstep|].
      destruct (D !! KName name) as [v|]; [apply Hstep | done].
Qed.

(** Whatever the loop raises holds of the dictionaries it was given. *)
Lemma loop_on_error_sound D i arg_names A args e A' :
  loop_on D i arg_names A args = (inl e, A') →
  ∃ j name, arg_names !! j = Some name
    ∧ ((e = TypeError (SpecifiedTwice name) ∧ twice_at A (i + j) name)
       ∨ (e = TypeError (NotSpecified name)
          ∧ D !! KName name = None ∧ A !! KPos (Z.of_nat (i + j)) = None)).
Proof.
  revert i A args. induction arg_names as [|name rest IH]; intros i A args; simpl.
  - done.
  - assert (∀ A1 v,
      (∀ k, is_Some (A1 !! k) → is_Some (A !! k)) →
      (∀ j, A1 !! KPos (Z.of_nat (S i + j)) = None →
            A !! KPos (Z.of_nat (i + S j)) = None) →
      loop_on D (S i) rest A1 (args ++ [v]) = (inl e, A') →
      ∃ j name', (name :: rest) !! j = Some name'
        ∧ ((e = TypeError (SpecifiedTwice name') ∧ twice_at A (i + j) name')
           ∨ (e = TypeError (NotSpecified name')
              ∧ D !! KName name' = None ∧ A !! KPos (Z.of_nat (i + j)) = None)))
      as Hstep.
    { intros A1 v Hsub Hpos Hrun.
      destruct (IH _ _ _ Hrun) as (j & name' & Hj & Hcase).
      exists (S j), name'. split; [done|].
      destruct Hcase as [[-> [H1 H2]] | (-> & Hd & Hp)].
      - left. split; [done|]. unfold twice_at.
        replace (i + S j) with (S i + j) by lia. split; by apply Hsub.
      - right. split_and!; [done | done | by apply Hpos]. }
    assert (∀ k0 k, is_Some (delete k0 A !! k) → is_Some (A !! k)) as Hdel.
    { intros k0 k [v Hv]. apply lookup_delete_Some in Hv as [_ Hv]. eauto. }
    destruct (A !! KPos (Z.of_nat i)) as [v|] eqn:Hpos.
    + case_bool_decide as Hkw.
      * intros [= <- _]. exists 0, name. split; [done|]. left. split; [done|].
        unfold twice_at. rewrite Nat.add_0_r, Hpos. split; [eauto | by eapply Hdel].
      * apply Hstep; [by apply Hdel|].
        intros j. rewrite lookup_delete_ne by (apply key_pos_ne; lia).
        by replace (i + S j) with (S i + j) by lia.
    + destruct (A !! KName name) as [v|] eqn:Hkw.
      * apply Hstep; [by apply Hdel|].
        intros j. rewrite lookup_delete_ne by done.
        by replace (i + S j) with (S i + j) by lia.
      * destruct (D !! KName name) as [v|] eqn:Hdef.
        -- apply Hstep; [done|]. intros j.
           by replace (i + S j) with (S i + j) by lia.
        -- intros [= <- _]. exists 0, name. split; [done|]. right.
           by rewrite Nat.add_0_r.
Qed.

(** Only the defaults of the listed names are read. *)
Lemma loop_on_defaults_agree D D' i arg_names A args :
  (∀ name, name ∈ arg_names → D !! KName name = D' !! KName name) →
  loop_on D i arg_names A args = loop_on D' i arg_names A args.
Proof.
  revert i A args. induction arg_names as [|name rest IH]; intros i A args Hagree;
    simpl; [done|].
  assert (∀ name', name' ∈ rest → D !! KName name' = D' !! KName name') as Hrest.
  { intros name' Hin. apply Hagree. by right. }
  rewrite <- (Hagree name) by left.
  destruct (A !! KPos (Z.of_nat i)) as [v|].
  - case_bool_decide; [done | by apply IH].
  - destruct (A !! KName name) as [v|]; [by apply IH|].
    destruct (D !! KName name) as [v|]; [by apply IH | done].
Qed.

(** With no argument given, every name takes its default. *)
Lemma loop_on_empty D i arg_names args vals :
  mapM (λ name, D !! KName name) arg_names = Some vals →
  loop_on D i arg_names ∅ args = (inr (args ++ vals), ∅).
Proof.
  revert i args vals. induction arg_names as [|name rest IH]; intros i args vals; simpl.
  - intros [= <-]. by rewrite app_nil_r.
  - rewrite !lookup_empty. destruct (D !! KName name) as [v|]; simpl; [|done].
    destruct (mapM _ rest) as [vals'|] eqn:Hrest; simpl; [|done].
    intros [= <-]. rewrite (IH _ _ vals') by done. by rewrite <- app_assoc.
Qed.

(** With no argument given, the first name without a default is the one
    reported. *)
Lemma loop_on_empty_missing D i before name after args :
  Forall (λ name', is_Some (D !! KName name')) before →
  D !! KName name = None →
  ∃ A', loop_on D i (before ++ name :: after) ∅ args
        = (inl (TypeError (NotSpecified name)), A').
Proof.
  intros Hbefore Hname. revert i args.
  induction Hbefore as [|name' before [v Hv] _ IH]; intros i args; simpl.
  - rewrite !lookup_empty, Hname. eauto.
  - rewrite !lookup_empty, Hv. apply IH.
Qed.

(** Positional arguments only: the values come back in order. *)
Lemma loop_on_positional D i arg_names A args vals :
  length vals = length arg_names →
  (∀ j : nat, A !! KPos (Z.of_nat (i + j)) = vals !! j) →
  (∀ k, is_Some (A !! k) → ∃ j : nat, k = KPos (Z.of_nat (i + j))) →
  loop_on D i arg_names A args = (inr (args ++ vals), ∅).
Proof.
  revert i A args vals.
  induction arg_names as [|name rest IH]; intros i A args vals Hlen Hpos Hkeys; simpl.
  - destruct vals; [|done]. rewrite app_nil_r. f_equal.
    apply map_eq. intros k. rewrite lookup_empty.
    apply eq_None_not_Some. intros Hk.
    destruct (Hkeys k Hk) as [j ->]. rewrite Hpos in Hk. by destruct Hk.
  - destruct vals as [|v vals]; [done|]. simpl in Hlen.
    pose proof (Hpos 0) as H0. rewrite Nat.add_0_r in H0. simpl in H0. rewrite H0.
    rewrite bool_decide_eq_false_2.
    + rewrite (IH (S i) _ _ vals); [by rewrite <- app_assoc | lia | |].
      * intros j. rewrite lookup_delete_ne by (apply key_pos_ne; lia).
        replace (S i + j) with (i + S j) by lia. by rewrite Hpos.
      * intros k [w Hk]. apply lookup_delete_Some in Hk as [Hne Hk].
        destruct (Hkeys k) as [j ->]; [eauto|].
        destruct j as [|j]; [by rewrite Nat.add_0_r in Hne|].
        exists j. do 2 f_equal. lia.
    + intros [w Hk]. apply lookup_delete_Some in Hk as [_ Hk].
      by destruct (Hkeys (KName name)) as [j ?]; [eauto|].
Qed.

(** After a successful loop no key it went through is left. *)
Lemma loop_on_covered_gone D i arg_names A args res A' :
  loop_on D i arg_names A args = (inr res, A') →
  ∀ k, covered i arg_names k → A' !! k = None.
Proof.
  revert i A args. induction arg_names as [|name rest IH]; intros i A args; simpl.
  - intros _ k [(j & Hj & _) | (name & Hin & _)];
      [simpl in Hj; lia | by apply elem_of_nil in Hin].
  - assert (∀ A1 v,
      A1 !! KPos (Z.of_nat i) = None → A1 !! KName name = None →
      loop_on D (S i) rest A1 (args ++ [v]) = (inr res, A') →
      ∀ k, covered i (name :: rest) k → A' !! k = None) as Hstep.
    { intros A1 v HP HN Hrun k Hk.
      destruct (loop_on_other_keys _ _ _ _ _ _ _ Hrun) as [_ Hsub].
      apply covered_cons in Hk as [-> | [-> | Hk]]; [| | by eapply IH].
      - apply eq_None_not_Some. intros Hs. apply Hsub in Hs.
        rewrite HP in Hs. by destruct Hs.
      - apply eq_None_not_Some. intros Hs. apply Hsub in Hs.
        rewrite HN in Hs. by destruct Hs. }
    destruct (A !! KPos (Z.of_nat i)) as [v|] eqn:Hpos.
    + case_bool_decide as Hkw; [done|].
      apply Hstep; [apply lookup_delete_eq | by apply eq_None_not_Some].
    + destruct (A !! KName name) as [v|] eqn:Hkw.
      * apply Hstep; [by rewrite lookup_delete_ne | apply lookup_delete_eq].
      * destruct (D !! KName name) as [v|] eqn:Hdef; [|done].
        by apply Hstep.
Qed.

End more_on_values.

End ResolveExtraFacts.

Module ResolveExtras.
Import Utils ResolveSpec ResolveFacts ResolveExtraFacts.

(** X6. Whatever the argument names and dictionaries are (repeated names
    included), [resolve_args] either raises [TypeError] or returns a list
    with exactly one value per name; its [pop] and subscript never raise
    [KeyError]. *)
Theorem resolve_args_outcome :
  ∀ {V : Type} (arg_names : list string) (default_dict arg_dict : positive)
    (D A : gmap key V) (h : gmap positive (gmap key V)),
    h !! default_dict = Some D → h !! arg_dict = Some A →
    (∃ reason, (resolve_args arg_names default_dict arg_dict h).1
               = inl (TypeError reason))
    ∨ (∃ args, (resolve_args arg_names default_dict arg_dict h).1 = inr args
               ∧ length args = length arg_names).
Proof.
  intros V arg_names dd ad D A h Hd Ha.
  rewrite (resolve_args_run arg_names dd ad D A h Hd Ha). simpl.
  destruct (resolve_on arg_names D A) as [e | args] eqn:Hres.
  - left. destruct (resolve_on_exn _ _ _ _ Hres) as [reason ->]. eauto.
  - right. exists args. split; [done|]. unfold resolve_on in Hres.
    destruct (loop_on D 0 arg_names A []) as [[e | res] A'] eqn:Hrun; [done|].
    destruct (negb _); [done|]. injection Hres as <-.
    by rewrite (loop_on_length _ _ _ _ _ _ _ Hrun).
Qed.

(** X7. An argument nobody asked for is never ignored: if [arg_dict] has a
    key that is neither a position below [len(arg_names)] nor one of the
    names, the call raises [TypeError]. *)
Theorem resolve_args_surplus_argument :
  ∀ {V : Type} (arg_names : list string) (default_dict arg_dict : positive)
    (D A : gmap key V) (h : gmap positive (gmap key V)) (k : key),
    h !! default_dict = Some D → h !! arg_dict = Some A →
    is_Some (A !! k) →
    (∀ i : nat, i < length arg_names → k ≠ KPos (Z.of_nat i)) →
    (∀ name, name ∈ arg_names → k ≠ KName name) →
    ∃ reason, (resolve_args arg_names default_dict arg_dict h).1
              = inl (TypeError reason).
Proof.
  intros V arg_names dd ad D A h k Hd Ha Hk Hpos Hname.
  rewrite (resolve_args_run arg_names dd ad D A h Hd Ha). simpl.
  unfold resolve_on.
  destruct (loop_on D 0 arg_names A []) as [[e | res] A'] eqn:Hrun.
  - destruct (loop_on_exn _ _ _ _ _ _ _ Hrun) as [reason ->]. eauto.
  - destruct (loop_on_other_keys _ _ _ _ _ _ _ Hrun) as [Hother _].
    rewrite bool_decide_eq_false_2; [simpl; eauto|].
    intros ->. rewrite <- (Hother k), lookup_empty in Hk; [by destruct Hk|].
    intros [(j & Hj & ->) | (name & Hin & ->)].
    + by apply (Hpos j).
    + by apply (Hname name).
Qed.

(** X8. What [resolve_args] reports is true of its inputs, for any
    argument names: "not specified" is raised for a listed name that has
    no default; the conflict of positional and keyword is raised for a
    name whose position and whose name are both keys of [arg_dict]; and
    "leftover arguments" is raised only if [arg_dict] has a key that is
    neither a position below [len(arg_names)] nor a listed name. *)
Theorem resolve_args_reports_truly :
  ∀ {V : Type} (arg_names : list string) (default_dict arg_dict : positive)
    (D A : gmap key V) (h : gmap positive (gmap key V)),
    h !! default_dict = Some D → h !! arg_dict = Some A →
    (∀ name, (resolve_args arg_names default_dict arg_dict h).1
             = inl (TypeError (NotSpecified name)) →
       name ∈ arg_names ∧ D !! KName name = None)
    ∧ (∀ name, (resolve_args arg_names default_dict arg_dict h).1
               = inl (TypeError (SpecifiedTwice name)) →
         ∃ i : nat, arg_names !! i = Some name
           ∧ is_Some (A !! KPos (Z.of_nat i)) ∧ is_Some (A !! KName name))
    ∧ ((resolve_args arg_names default_dict arg_dict h).1
       = inl (TypeError LeftoverArguments) →
         ∃ k, is_Some (A !! k)
           ∧ (∀ i : nat, i < length arg_names → k ≠ KPos (Z.of_nat i))
           ∧ (∀ name, name ∈ arg_names → k ≠ KName name)).
Proof.
  intros V arg_names dd ad D A h Hd Ha.
  rewrite (resolve_args_run arg_names dd ad D A h Hd Ha). simpl.
  unfold resolve_on.
  destruct (loop_on D 0 arg_names A []) as [[e | res] A'] eqn:Hrun.
  - destruct (loop_on_error_sound _ _ _ _ _ _ _ Hrun)
      as (j & name' & Hj & [[-> Htwice] | (-> & Hdef & _)]).
    + split_and!; [done | | done].
      intros name [= <-]. exists j. by destruct Htwice.
    + split_and!; [| done | done].
      intros name [= <-]. split; [by eapply list_elem_of_lookup_2 | done].
  - destruct (negb (bool_decide (A' = ∅))) eqn:Hempty; [|done].
    split_and!; [done | done |]. intros _.
    apply negb_true_iff, bool_decide_eq_false in Hempty.
    apply map_choose in Hempty as (k & v & Hk). exists k.
    destruct (loop_on_other_keys _ _ _ _ _ _ _ Hrun) as [_ Hsub].
    pose proof (loop_on_covered_gone _ _ _ _ _ _ _ Hrun k) as Hgone.
    split_and!; [apply Hsub; eauto | |].
    + intros i Hi ->. rewrite Hgone in Hk; [done|]. left. eauto.
    + intros name Hin ->. rewrite Hgone in Hk; [done|]. right. eauto.
Qed.

(** X9. Defaults nobody needs are never an error, and never matter: two
    default dictionaries that agree on the listed names give the same
    outcome, whatever else they hold. *)
Theorem resolve_args_unused_defaults :
  ∀ {V : Type} (arg_names : list string) (default_dict default_dict' arg_dict : positive)
    (D D' A : gmap key V) (h : gmap positive (gmap key V)),
    h !! default_dict = Some D → h !! default_dict' = Some D' →
    h !! arg_dict = Some A →
    (∀ name, name ∈ arg_names → D !! KName name = D' !! KName name) →
    (resolve_args arg_names default_dict arg_dict h).1
    = (resolve_args arg_names default_dict' arg_dict h).1.
Proof.
  intros V arg_names dd dd' ad D D' A h Hd Hd' Ha Hagree.
  rewrite (resolve_args_run arg_names dd ad D A h Hd Ha).
  rewrite (resolve_args_run arg_names dd' ad D' A h Hd' Ha). simpl.
  unfold resolve_on. by rewrite (loop_on_defaults_agree D D' 0 arg_names A [] Hagree).
Qed.

(** X10. With an empty [arg_dict], the call returns the defaults of the
    names, in order, when every name has one; otherwise it raises "not
    specified" for the first name that has none. *)
Theorem resolve_args_no_arguments :
  ∀ {V : Type} (arg_names : list string) (default_dict arg_dict : positive)
    (D : gmap key V) (h : gmap positive (gmap key V)),
    h !! default_dict = Some D → h !! arg_dict = Some ∅ →
    (∀ vals, mapM (λ name, D !! KName name) arg_names = Some vals →
       (resolve_args arg_names default_dict arg_dict h).1 = inr vals)
    ∧ (∀ before name after,
         arg_names = before ++ name :: after →
         Forall (λ name', is_Some (D !! KName name')) before →
         D !! KName name = None →
         (resolve_args arg_names default_dict arg_dict h).1
         = inl (TypeError (NotSpecified name))).
Proof.
  intros V arg_names dd ad D h Hd Ha.
  rewrite (resolve_args_run arg_names dd ad D ∅ h Hd Ha). simpl.
  unfold resolve_on. split.
  - intros vals Hvals. rewrite (loop_on_empty D 0 arg_names [] vals Hvals).
    by rewrite bool_decide_eq_true_2.
  - intros before name after -> Hbefore Hname.
    by destruct (loop_on_empty_missing D 0 before name after [] Hbefore Hname)
      as [A' ->].
Qed.

(** X11. Positional arguments only: if [arg_dict] maps exactly the
    positions [0 .. len(arg_names) - 1] to the values [vals], the call
    returns [vals], whatever the names and the defaults are. *)
Theorem resolve_args_positional :
  ∀ {V : Type} (arg_names : list string) (default_dict arg_dict : positive)
    (D A : gmap key V) (h : gmap positive (gmap key V)) (vals : list V),
    h !! default_dict = Some D → h !! arg_dict = Some A →
    length vals = length arg_names →
    (∀ i : nat, A !! KPos (Z.of_nat i) = vals !! i) →
    (∀ k, is_Some (A !! k) → ∃ i : nat, k = KPos (Z.of_nat i)) →
    (resolve_args arg_names default_dict arg_dict h).1 = inr vals.
Proof.
  intros V arg_names dd ad D A h vals Hd Ha Hlen Hpos Hkeys.
  rewrite (resolve_args_run arg_names dd ad D A h Hd Ha). simpl.
  unfold resolve_on.
  rewrite (loop_on_positional D 0 arg_names A [] vals Hlen); [| done | done].
  by rewrite bool_decide_eq_true_2.
Qed.

(** X12. Keyword arguments only: for pairwise distinct names, if
    [arg_dict] maps exactly the names to the values [vals], name by name,
    the call returns [vals] in the order of the names, whatever the
    defaults are. *)
Theorem resolve_args_keyword :
  ∀ {V : Type} (arg_names : list string) (default_dict arg_dict : positive)
    (D A : gmap key V) (h : gmap positive (gmap key V)) (vals : list V),
    NoDup arg_names →
    h !! default_dict = Some D → h !! arg_dict = Some A →
    length vals = length arg_names →
    (∀ i name, arg_names !! i = Some name → A !! KName name = vals !! i) →
    (∀ k, is_Some (A !! k) → ∃ name, name ∈ arg_names ∧ k = KName name) →
    (resolve_args arg_names default_dict arg_dict h).1 = inr vals.
Proof.
  intros V arg_names dd ad D A h vals Hnd Hd Ha Hlen Hkw Hkeys.
  rewrite (resolve_args_run arg_names dd ad D A h Hd Ha). simpl.
  assert (∀ i : nat, A !! KPos (Z.of_nat i) = None) as Hnopos.
  { intros i. apply eq_None_not_Some. intros Hs.
    by destruct (Hkeys _ Hs) as (name & _ & ?). }
  assert (∀ i name, arg_names !! i = Some name → is_Some (A !! KName name)) as Hhas.
  { intros i name Hi. rewrite (Hkw i name Hi).
    apply lookup_lt_is_Some_2. rewrite Hlen. by eapply lookup_lt_Some. }
  destruct (resolve_on arg_names D A) as [e | args] eqn:Hres.
  - exfalso.
    destruct (proj1 (resolve_on_fail_iff arg_names D A Hnd))
      as [(i & name & Hi & [Hp _]) | [(i & name & Hi & (_ & Hn & _)) | (k & Hk & Hfree)]];
      [eauto | | |].
    + rewrite Hnopos in Hp. by destruct Hp.
    + destruct (Hhas i name Hi) as [v Hv]. congruence.
    + destruct (Hkeys k Hk) as (name & Hin & ->).
      apply list_elem_of_lookup in Hin as [i Hi].
      apply (Hfree i name Hi). unfold consumed_key.
      rewrite bool_decide_eq_false_2 by (rewrite Hnopos; by intros [? ?]).
      by rewrite bool_decide_eq_true_2 by eauto.
  - destruct (resolve_on_success _ _ _ _ Hnd Hres) as [Hlen' Hvals].
    f_equal. apply list_eq. intros i.
    destruct (arg_names !! i) as [name|] eqn:Hi.
    + rewrite (Hvals i name Hi). unfold binding.
      rewrite Hnopos. destruct (Hhas i name Hi) as [v Hv].
      by rewrite Hv, <- (Hkw i name Hi).
    + apply lookup_ge_None in Hi.
      rewrite !(proj2 (lookup_ge_None _ _)); [done | lia | lia].
Qed.

End ResolveExtras.

Module ResolveInterchangeFacts.
Import Utils ResolveSpec ResolveFacts ResolveExtraFacts.

Section interchange.
Context {V : Type}.
Implicit Types (A B D : gmap key V) (arg_names : list string).

(** One iteration of the loop, by what the name is bound to. *)
Lemma loop_on_cons_cases D i name rest A args :
  (twice_at A i name
   ∧ ∃ A', loop_on D i (name :: rest) A args
           = (inl (TypeError (SpecifiedTwice name)), A'))
  ∨ (¬ twice_at A i name ∧ binding D A i name = None
     ∧ loop_on D i (name :: rest) A args = (inl (TypeError (NotSpecified name)), A))
  ∨ (¬ twice_at A i name
     ∧ ∃ v A1, binding D A i name = Some v
         ∧ (∀ k, k ≠ KPos (Z.of_nat i) → k ≠ KName name → A1 !! k = A !! k)
         ∧ loop_on D i (name :: rest) A args
           = loop_on D (S i) rest A1 (args ++ [v])).
Proof.
  unfold twice_at, binding. simpl.
  destruct (A !! KPos (Z.of_nat i)) as [v|] eqn:Hpos.
  - case_bool_decide as Hkw; rewrite lookup_delete_ne in Hkw by done.
    + left. split; [split; eauto | eauto].
    + right; right. split; [by intros [_ ?]|].
      exists v, (delete (KPos (Z.of_nat i)) A). split_and!; [done | | done].
      intros k ? _. by rewrite lookup_delete_ne.
  - destruct (A !! KName name) as [v|] eqn:Hkw.
    + right; right. split; [intros [[? ?] _]; done|].
      exists v, (delete (KName name) A). split_and!; [done | | done].
      intros k _ ?. by rewrite lookup_delete_ne.
    + destruct (D !! KName name) as [v|] eqn:Hdef.
      * right; right. split; [intros [[? ?] _]; done|].
        exists v, A. done.
      * right; left. split; [intros [[? ?] _]; done | done].
Qed.

(** For distinct names, the outcome of the loop depends on the private
    copy only through what each name is bound to. *)
Lemma loop_on_same_bindings D i arg_names A B args :
  NoDup arg_names →
  (∀ j name, arg_names !! j = Some name →
     (twice_at A (i + j) name ↔ twice_at B (i + j) name)
     ∧ binding D A (i + j) name = binding D B (i + j) name) →
  (loop_on D i arg_names A args).1 = (loop_on D i arg_names B args).1.
Proof.
  intros Hnd. revert i A B args.
  induction Hnd as [|name rest Hnotin Hnd IH]; intros i A B args Hsame; [done|].
  destruct (Hsame 0 name eq_refl) as [Htw Hb]. rewrite Nat.add_0_r in Htw, Hb.
  assert (∀ A1 B1,
    (∀ k, k ≠ KPos (Z.of_nat i) → k ≠ KName name → A1 !! k = A !! k) →
    (∀ k, k ≠ KPos (Z.of_nat i) → k ≠ KName name → B1 !! k = B !! k) →
    ∀ j name', rest !! j = Some name' →
      (twice_at A1 (S i + j) name' ↔ twice_at B1 (S i + j) name')
      ∧ binding D A1 (S i + j) name' = binding D B1 (S i + j) name') as Hrest.
  { intros A1 B1 HA HB j name' Hj.
    assert (name ≠ name') as Hne.
    { intros ->. apply Hnotin. by eapply list_elem_of_lookup_2. }
    destruct (Hsame (S j) name' Hj) as [Htw' Hb'].
    replace (i + S j) with (S i + j) in * by lia.
    unfold twice_at, binding in *.
    rewrite !HA, !HB by (congruence || (apply not_eq_sym, key_pos_ne; lia)).
    done. }
  destruct (loop_on_cons_cases D i name rest A args)
    as [[HtA [A' ->]] | [(HntA & HbA & ->) | (HntA & v & A1 & HbA & HA & ->)]];
  destruct (loop_on_cons_cases D i name rest B args)
    as [[HtB [B' ->]] | [(HntB & HbB & ->) | (HntB & w & B1 & HbB & HB & ->)]];
    try done; try tauto; try congruence.
  assert (v = w) as <- by congruence.
  apply IH. by apply Hrest.
Qed.

(** The outcome of the whole resolution, likewise, given that the two
    dictionaries have the same surplus keys. *)
Lemma resolve_on_same_bindings D arg_names A B :
  NoDup arg_names →
  (∀ j name, arg_names !! j = Some name →
     (twice_at A j name ↔ twice_at B j name)
     ∧ binding D A j name = binding D B j name) →
  (∀ k, ¬ covered 0 arg_names k → (is_Some (A !! k) ↔ is_Some (B !! k))) →
  resolve_on arg_names D A = resolve_on arg_names D B.
Proof.
  intros Hnd Hsame Hsurplus.
  pose proof (loop_on_same_bindings D 0 arg_names A B [] Hnd Hsame) as Hloop.
  unfold resolve_on.
  destruct (loop_on D 0 arg_names A []) as [[e | res] A'] eqn:HrunA;
  destruct (loop_on D 0 arg_names B []) as [[e' | res'] B'] eqn:HrunB;
    simpl in Hloop; try done; try congruence.
  injection Hloop as <-.
  assert (∀ X X', loop_on D 0 arg_names X [] = (inr res, X') →
            X' = ∅ ↔ ∀ k, ¬ covered 0 arg_names k → X !! k = None) as Hleft.
  { intros X X' Hrun.
    destruct (loop_on_other_keys _ _ _ _ _ _ _ Hrun) as [Hother _].
    pose proof (loop_on_covered_gone _ _ _ _ _ _ _ Hrun) as Hgone.
    split.
    - intros -> k Hk. by rewrite <- (Hother k Hk), lookup_empty.
    - intros Hnone. apply map_eq. intros k. rewrite lookup_empty.
      apply eq_None_not_Some. intros [v Hv].
      assert (¬ covered 0 arg_names k) as Hnc.
      { intros Hc. rewrite (Hgone k Hc) in Hv. done. }
      rewrite (Hother k Hnc), (Hnone k Hnc) in Hv. done. }
  assert (A' = ∅ ↔ B' = ∅) as Hiff.
  { rewrite (Hleft A A' HrunA), (Hleft B B' HrunB).
    split; intros Hnone k Hk; apply eq_None_not_Some; intros Hs;
      apply (Hsurplus k Hk) in Hs; rewrite (Hnone k Hk) in Hs; by destruct Hs. }
  destruct (decide (A' = ∅)) as [HA | HA].
  - rewrite !bool_decide_eq_true_2; tauto.
  - rewrite !bool_decide_eq_false_2; tauto.
Qed.

End interchange.

End ResolveInterchangeFacts.

Module ResolveInterchange.
Import Utils ResolveSpec ResolveFacts ResolveExtraFacts ResolveInterchangeFacts.

(** X13. An argument may be given by position or by name to the same
    effect: for pairwise distinct names, if [arg_dict] gives the argument
    at position [i] positionally and not by name, then the dictionary that
    gives it by name instead resolves to the same outcome. *)
Theorem resolve_args_position_or_name :
  ∀ {V : Type} (arg_names : list string) (default_dict arg_dict arg_dict' : positive)
    (D A : gmap key V) (h : gmap positive (gmap key V))
    (i : nat) (name : string) (v : V),
    NoDup arg_names →
    h !! default_dict = Some D → h !! arg_dict = Some A →
    arg_names !! i = Some name →
    A !! KPos (Z.of_nat i) = Some v → A !! KName name = None →
    h !! arg_dict' = Some (<[KName name := v]> (delete (KPos (Z.of_nat i)) A)) →
    (resolve_args arg_names default_dict arg_dict' h).1
    = (resolve_args arg_names default_dict arg_dict h).1.
Proof.
  intros V arg_names dd ad ad' D A h i name v Hnd Hd Ha Hi Hpos Hkw Ha'.
  rewrite (resolve_args_run arg_names dd ad D A h Hd Ha).
  rewrite (resolve_args_run arg_names dd ad' D _ h Hd Ha'). simpl.
  set (B := <[KName name := v]> (delete (KPos (Z.of_nat i)) A)).
  assert (∀ j name', arg_names !! j = Some name' → j ≠ i → name' ≠ name) as Hdistinct.
  { intros j name' Hj Hne ->. apply Hne. by eapply NoDup_lookup. }
  assert (∀ j : nat, j ≠ i → B !! KPos (Z.of_nat j) = A !! KPos (Z.of_nat j)) as HBpos.
  { intros j Hne. unfold B.
    rewrite lookup_insert_ne, lookup_delete_ne; [done | apply key_pos_ne; lia | done]. }
  assert (∀ name', name' ≠ name → B !! KName name' = A !! KName name') as HBkw.
  { intros name' Hne. unfold B.
    rewrite lookup_insert_ne, lookup_delete_ne; [done | done | congruence]. }
  assert (B !! KPos (Z.of_nat i) = None) as HBi.
  { unfold B. rewrite lookup_insert_ne by done. apply lookup_delete_eq. }
  assert (B !! KName name = Some v) as HBname.
  { unfold B. apply lookup_insert_eq. }
  apply resolve_on_same_bindings; [done | |].
  - intros j name' Hj. unfold twice_at, binding.
    destruct (decide (j = i)) as [-> | Hne].
    + assert (name' = name) as -> by congruence.
      rewrite HBi, HBname, Hpos, Hkw. split; [|done].
      split; intros [H1 H2]; [by destruct H1 | by destruct H2].
    + by rewrite (HBpos j Hne), (HBkw name' (Hdistinct j name' Hj Hne)).
  - intros k Hk.
    assert (k ≠ KPos (Z.of_nat i)) as Hk1.
    { intros ->. apply Hk. left. exists i. split; [by eapply lookup_lt_Some | done]. }
    assert (k ≠ KName name) as Hk2.
    { intros ->. apply Hk. right. exists name.
      split; [by eapply list_elem_of_lookup_2 | done]. }
    unfold B. by rewrite lookup_insert_ne, lookup_delete_ne.
Qed.

End ResolveInterchange.

Module ExtrasExamples.
Import Utils ResolveSpec ResolveExamples MoreResolveExamples.
Import UniqueNameExtras StateVariableExtras ResolveExtras ResolveInterchange.

Lemma get_unique_name_stable_witness :
  get_unique_name 3 "y" [yz_names] = Some "y1".
Proof.
  apply (get_unique_name_stable 3 "y" [y_names] [yz_names] "y1").
  - vm_compute. reflexivity.
  - apply (bool_decide_unpack (_ ⊆ _)). vm_compute. exact I.
  - apply (bool_decide_unpack (_ ∉ _)). vm_compute. exact I.
Defined.

Lemma get_unique_name_again_witness :
  "y1" ≠ "y2" ∧ ("y2" ∉ ⋃ [y_names]) ∧ startswith "y2" "y" = true
  ∧ ∃ n, "y2" = "y" +:+ str n.
Proof.
  apply (get_unique_name_again 3 4 "y" [y_names] "y1" "y2").
  - vm_compute. reflexivity.
  - vm_compute. reflexivity.
Defined.

Lemma is_state_variable_extend_witness :
  is_state_variable ("<state>y" +:+ "_old") = true.
Proof.
  apply (is_state_variable_extend "<state>y" "_old").
  - reflexivity.
  - discriminate.
  - discriminate.
Defined.

Lemma resolve_args_outcome_witness :
  (∃ reason, (resolve_args ["a"; "b"; "c"] 1%positive 2%positive abc_store).1
             = inl (TypeError reason))
  ∨ (∃ args, (resolve_args ["a"; "b"; "c"] 1%positive 2%positive abc_store).1
             = inr args
             ∧ length args = length ["a"; "b"; "c"]).
Proof.
  apply (resolve_args_outcome ["a"; "b"; "c"] 1%positive 2%positive
           abc_defaults abc_args abc_store).
  - vm_compute. reflexivity.
  - vm_compute. reflexivity.
Defined.

Lemma resolve_args_surplus_argument_witness :
  ∃ reason, (resolve_args ["a"] 1%positive 2%positive surplus_store).1
            = inl (TypeError reason).
Proof.
  apply (resolve_args_surplus_argument ["a"] 1%positive 2%positive
           ∅ surplus_args surplus_store (KPos 1)).
  - vm_compute. reflexivity.
  - vm_compute. reflexivity.
  - exists 2%Z. vm_compute. reflexivity.
  - intros i Hi Heq. injection Heq as Heq. simpl in Hi. lia.
  - intros name _. discriminate.
Defined.

Lemma resolve_args_reports_truly_witness :
  (∀ name, (resolve_args ["a"; "a"] 1%positive 2%positive aa_store).1
           = inl (TypeError (NotSpecified name)) →
     name ∈ ["a"; "a"] ∧ (∅ : gmap key Z) !! KName name = None)
  ∧ (∀ name, (resolve_args ["a"; "a"] 1%positive 2%positive aa_store).1
             = inl (TypeError (SpecifiedTwice name)) →
       ∃ i : nat, ["a"; "a"] !! i = Some name
         ∧ is_Some (aa_args !! KPos (Z.of_nat i)) ∧ is_Some (aa_args !! KName name))
  ∧ ((resolve_args ["a"; "a"] 1%positive 2%positive aa_store).1
     = inl (TypeError LeftoverArguments) →
       ∃ k, is_Some (aa_args !! k)
         ∧ (∀ i : nat, i < length ["a"; "a"] → k ≠ KPos (Z.of_nat i))
         ∧ (∀ name, name ∈ ["a"; "a"] → k ≠ KName name)).
Proof.
  apply (resolve_args_reports_truly ["a"; "a"] 1%positive 2%positive
           ∅ aa_args aa_store).
  - vm_compute. reflexivity.
  - vm_compute. reflexivity.
Defined.

Lemma resolve_args_unused_defaults_witness :
  (resolve_args ["a"; "b"] 1%positive 2%positive two_defaults_store).1
  = (resolve_args ["a"; "b"] 3%positive 2%positive two_defaults_store).1.
Proof.
  apply (resolve_args_unused_defaults ["a"; "b"] 1%positive 3%positive 2%positive
           ab_defaults abz_defaults ∅ two_defaults_store).
  - vm_compute. reflexivity.
  - vm_compute. reflexivity.
  - vm_compute. reflexivity.
  - intros name Hin.
    apply elem_of_cons in Hin as [-> | Hin]; [vm_compute; reflexivity|].
    apply list_elem_of_singleton in Hin as ->. vm_compute. reflexivity.
Defined.

Lemma resolve_args_no_arguments_witness :
  (∀ vals, mapM (λ name, ab_defaults !! KName name) ["a"; "b"] = Some vals →
     (resolve_args ["a"; "b"] 1%positive 2%positive defaults_only_store).1
     = inr vals)
  ∧ (∀ before name after,
       ["a"; "b"] = before ++ name :: after →
       Forall (λ name', is_Some (ab_defaults !! KName name')) before →
       ab_defaults !! KName name = None →
       (resolve_args ["a"; "b"] 1%positive 2%positive defaults_only_store).1
       = inl (TypeError (NotSpecified name))).
Proof.
  apply (resolve_args_no_arguments ["a"; "b"] 1%positive 2%positive
           ab_defaults defaults_only_store).
  - vm_compute. reflexivity.
  - vm_compute. reflexivity.
Defined.

Lemma resolve_args_positional_witness :
  (resolve_args ["a"; "b"] 1%positive 2%positive positional_store).1
  = inr [10%Z; 20%Z].
Proof.
  apply (resolve_args_positional ["a"; "b"] 1%positive 2%positive
           ∅ positional_args positional_store [10%Z; 20%Z]).
  - vm_compute. reflexivity.
  - vm_compute. reflexivity.
  - reflexivity.
  - intros [|[|i]]; [vm_compute; reflexivity | vm_compute; reflexivity |].
    unfold positional_args.
    rewrite lookup_insert_ne, lookup_singleton_ne; [done | |];
      intros Heq; injection Heq as Heq; lia.
  - intros k [v Hk]. unfold positional_args in Hk.
    apply lookup_insert_Some in Hk as [[<- _] | [_ Hk]]; [by exists 0|].
    apply lookup_singleton_Some in Hk as [<- _]. by exists 1.
Defined.

Lemma resolve_args_keyword_witness :
  (resolve_args ["a"; "b"] 1%positive 2%positive keyword_store).1
  = inr [10%Z; 20%Z].
Proof.
  apply (resolve_args_keyword ["a"; "b"] 1%positive 2%positive
           ∅ keyword_args keyword_store [10%Z; 20%Z]).
  - apply (bool_decide_unpack (NoDup _)). vm_compute. exact I.
  - vm_compute. reflexivity.
  - vm_compute. reflexivity.
  - reflexivity.
  - intros [|[|[|i]]] name Hi; simpl in Hi; try discriminate;
      injection Hi as <-; vm_compute; reflexivity.
  - intros k [v Hk]. unfold keyword_args in Hk.
    apply lookup_insert_Some in Hk as [[<- _] | [_ Hk]].
    + exists "a". split; [left | done].
    + apply lookup_singleton_Some in Hk as [<- _].
      exists "b". split; [right; left | done].
Defined.

Lemma resolve_args_position_or_name_witness :
  (resolve_args ["a"; "b"] 1%positive 3%positive interchange_store).1
  = (resolve_args ["a"; "b"] 1%positive 2%positive interchange_store).1.
Proof.
  apply (resolve_args_position_or_name ["a"; "b"] 1%positive 2%positive 3%positive
           ∅ positional_args interchange_store 1 "b" 20%Z).
  - apply (bool_decide_unpack (NoDup _)). vm_compute. exact I.
  - vm_compute. reflexivity.
  - vm_compute. reflexivity.
  - reflexivity.
  - vm_compute. reflexivity.
  - vm_compute. reflexivity.
  - vm_compute. reflexivity.
Defined.

End ExtrasExamples.
